(** * answerkey-search: a shallow embedding of [src/main.rs] and its properties

    Answers, quiz attempts, answer keys and key sets are modelled as the code
    has them.  Every [panic!] (and every implicit panic of the Rust code: a
    [usize] subtraction that underflows, an index out of bounds) becomes an
    [Err] of the small error monad [result] below.  Rust [i32] scores are [Z];
    [usize] is the unsigned 64-bit type of a 64-bit target. *)

From Stdlib Require Import String Ascii.
From Stdlib Require Import List Bool ZArith Lia.
From Stdlib Require Import Permutation Sorted RelationClasses.
Import ListNotations.
Open Scope Z_scope.

(** ** Errors and the error monad *)

Inductive panic :=
| InvalidSymbol        (* panic!("Invalid letter: {}") in Answer::from *)
| ImpossibleScore      (* panic!("Impossible score: ...") in from_string *)
| LengthMismatch       (* panic!("Unmatched lengths!") in check *)
| UnequalLengths       (* panic!("The lengths of the answers are not all the same!") *)
| SubtractOverflow     (* usize subtraction underflow *)
| AddOverflow          (* i32 addition overflow in sum::<i32>() *)
| IndexOutOfBounds.    (* indexing a Vec out of range *)

Inductive result (T : Type) :=
| Ok (v : T)
| Err (e : panic).
Arguments Ok {T} v.
Arguments Err {T} e.

Definition bind {T U : Type} (m : result T) (f : T -> result U) : result U :=
  match m with
  | Ok v => f v
  | Err e => Err e
  end.

Notation "'let*' x ':=' m 'in' f" := (bind m (fun x => f))
  (at level 200, x name, m at level 100, f at level 200).

(** [iter.map(f).collect::<Vec<_>>()] where [f] may panic: the first panic
    aborts the whole collection. *)
Fixpoint map_res {T U : Type} (f : T -> result U) (l : list T) : result (list U) :=
  match l with
  | [] => Ok []
  | x :: l' =>
      let* y := f x in
      let* ys := map_res f l' in
      Ok (y :: ys)
  end.

(** [iter.flat_map(f)] for a panicking [f]. *)
Fixpoint flat_map_res {T U : Type} (f : T -> result (list U)) (l : list T)
  : result (list U) :=
  match l with
  | [] => Ok []
  | x :: l' =>
      let* ys := f x in
      let* zs := flat_map_res f l' in
      Ok (ys ++ zs)
  end.

(** [iter.filter(p)] for a panicking predicate. *)
Fixpoint filter_res {T : Type} (p : T -> result bool) (l : list T) : result (list T) :=
  match l with
  | [] => Ok []
  | x :: l' =>
      let* b := p x in
      let* ys := filter_res p l' in
      Ok (if b then x :: ys else ys)
  end.

(** ** [enum Answer] with its derived [Ord] (declaration order) *)

Inductive Answer := A | B | C | D | X.

Definition answer_index (a : Answer) : nat :=
  match a with A => 0 | B => 1 | C => 2 | D => 3 | X => 4 end%nat.

Definition answer_eqb (a b : Answer) : bool := Nat.eqb (answer_index a) (answer_index b).

Definition answer_cmp (a b : Answer) : comparison :=
  Nat.compare (answer_index a) (answer_index b).

(** [impl Display for Answer] *)
Definition answer_to_char (a : Answer) : ascii :=
  match a with
  | A => "A" | B => "B" | C => "C" | D => "D" | X => "X"
  end%char.

(** [impl From<char> for Answer]: a Rust [char] outside the five letters
    panics.  Characters are modelled as [ascii]. *)
Definition answer_from (c : ascii) : result Answer :=
  if Ascii.eqb c "A" then Ok A
  else if Ascii.eqb c "B" then Ok B
  else if Ascii.eqb c "C" then Ok C
  else if Ascii.eqb c "D" then Ok D
  else if Ascii.eqb c "X" then Ok X
  else Err InvalidSymbol.

(** Lexicographic order of the derived [Ord] on [Vec<Answer>] (and on
    [AnswerKey], whose only field is that vector). *)
Fixpoint list_cmp (l1 l2 : list Answer) : comparison :=
  match l1, l2 with
  | [], [] => Eq
  | [], _ :: _ => Lt
  | _ :: _, [] => Gt
  | x :: l1', y :: l2' =>
      match answer_cmp x y with
      | Eq => list_cmp l1' l2'
      | c => c
      end
  end.

Definition list_eqb (l1 l2 : list Answer) : bool :=
  match list_cmp l1 l2 with Eq => true | _ => false end.

(** ** Slices: [sort] and [dedup] *)

Section SortDedup.
Context {T : Type} (cmp : T -> T -> comparison).

(** Stable insertion: [x] goes before the first element not smaller
    than it.  Folding it from the right keeps equal elements in their
    original order, as Rust's stable [slice::sort] does. *)
Fixpoint insert_by (x : T) (l : list T) : list T :=
  match l with
  | [] => [x]
  | y :: l' =>
      match cmp y x with
      | Lt => y :: insert_by x l'
      | _ => x :: y :: l'
      end
  end.

Definition sort_by (l : list T) : list T := fold_right insert_by [] l.

(** [Vec::dedup]: of each run of equal consecutive elements the first is
    kept. *)
Fixpoint dedup_from (x : T) (l : list T) : list T :=
  match l with
  | [] => [x]
  | y :: l' =>
      match cmp x y with
      | Eq => dedup_from x l'
      | _ => x :: dedup_from y l'
      end
  end.

Definition dedup (l : list T) : list T :=
  match l with
  | [] => []
  | x :: l' => dedup_from x l'
  end.
End SortDedup.

(** ** Itertools adaptors *)

(** [pool.combinations_with_replacement(k)]: the non-decreasing
    selections of [k] elements of the pool, in lexicographic order of
    their indices. *)
Fixpoint combinations_with_replacement {T : Type} (pool : list T) (k : nat)
  : list (list T) :=
  match pool with
  | [] => match k with O => [[]] | S _ => [] end
  | x :: rest =>
      (fix go (k : nat) : list (list T) :=
         match k with
         | O => [[]]
         | S k' => map (cons x) (go k') ++ combinations_with_replacement rest k
         end) k
  end.

(** [l.combinations(k)]: the [k]-subsets of positions of [l], in
    lexicographic order. *)
Fixpoint combinations {T : Type} (l : list T) (k : nat) : list (list T) :=
  match l with
  | [] => match k with O => [[]] | S _ => [] end
  | x :: rest =>
      match k with
      | O => [[]]
      | S k' => map (cons x) (combinations rest k') ++ combinations rest k
      end
  end.

(** Each element of a list paired with the list of the others. *)
Fixpoint picks {T : Type} (l : list T) : list (T * list T) :=
  match l with
  | [] => []
  | x :: l' => (x, l') :: map (fun '(y, r) => (y, x :: r)) (picks l')
  end.

(** [l.permutations(k)]: the arrangements of [k] distinct positions of [l]
    in lexicographic order of positions (a single empty arrangement for
    [k = 0], none when [k] exceeds the length). *)
Fixpoint permutations {T : Type} (l : list T) (k : nat) : list (list T) :=
  match k with
  | O => [[]]
  | S k' => flat_map (fun '(x, r) => map (cons x) (permutations r k')) (picks l)
  end.

(** ** [QuizAttempt], [AnswerKey], [AnswerKeySet] *)

Record QuizAttempt := {
  answers : list Answer;
  score : Z  (* i32 *)
}.

Definition AnswerKey := list Answer.
Definition AnswerKeySet := list AnswerKey.

(** [AnswerKey::as_string] *)
Definition as_string (key : AnswerKey) : string :=
  string_of_list_ascii (map answer_to_char key).

(** [score as usize] on a 64-bit target: sign extension, then read unsigned. *)
Definition usize_of_i32 (z : Z) : Z := z mod 2 ^ 64.

(** [str::to_uppercase] on the ASCII characters of an answer file. *)
Definition char_to_upper (c : ascii) : ascii :=
  let n := nat_of_ascii c in
  if andb (Nat.leb 97 n) (Nat.leb n 122) then ascii_of_nat (n - 32) else c.

(** [QuizAttempt::from_string]; [string.len()] is the byte length, the
    number of characters of an ASCII string. *)
Definition from_string (s : string) (sc : Z) : result QuizAttempt :=
  if Z.of_nat (String.length s) <? usize_of_i32 sc then Err ImpossibleScore
  else
    let* ans := map_res answer_from (map char_to_upper (list_ascii_of_string s)) in
    Ok {| answers := ans; score := sc |}.

(** [Iterator::sum::<i32>]: [fold(0, |a, b| a + b)], each [+] with the
    overflow check of a debug build. *)
Fixpoint sum_i32_from (acc : Z) (l : list Z) : result Z :=
  match l with
  | [] => Ok acc
  | x :: l' =>
      if andb (Z.leb (- 2 ^ 31) (acc + x)) (Z.ltb (acc + x) (2 ^ 31))
      then sum_i32_from (acc + x) l'
      else Err AddOverflow
  end.

Definition sum_i32 (l : list Z) : result Z := sum_i32_from 0 l.

(** [QuizAttempt::check]: [zip], one per equal pair, [sum::<i32>], compare
    with the score. *)
Definition check (q : QuizAttempt) (key : AnswerKey) : result bool :=
  if negb (Nat.eqb (length (answers q)) (length key)) then Err LengthMismatch
  else
    let* s := sum_i32
                (map (fun '(x, y) => if answer_eqb x y then 1 else 0)
                   (combine (answers q) key)) in
    Ok (Z.eqb s (score q)).

(** [this_key[add] = a] for each [(add, a)] of
    [possible_mistakes.iter().zip(ans)]; indexing out of range panics. *)
Fixpoint replace_nth (l : list Answer) (i : nat) (a : Answer) : list Answer :=
  match l, i with
  | [], _ => []
  | _ :: l', O => a :: l'
  | x :: l', S i' => x :: replace_nth l' i' a
  end.

Fixpoint overwrite (key : list Answer) (ps : list nat) (ans : list Answer)
  : result (list Answer) :=
  match ps, ans with
  | p :: ps', a :: ans' =>
      if Nat.ltb p (length key) then overwrite (replace_nth key p a) ps' ans'
      else Err IndexOutOfBounds
  | _, _ => Ok key
  end.

(** [answers_to_try] in [generate_valid_set]: replacement sequences of
    length [k] from [[A, B, C, D]], sorted and deduplicated. *)
Definition answers_to_try (k : nat) : list (list Answer) :=
  dedup list_cmp
    (sort_by list_cmp
       (flat_map (fun comb => permutations comb k)
          (combinations_with_replacement [A; B; C; D] k))).

Definition contains_x (key : AnswerKey) : bool := existsb (answer_eqb X) key.

(** [QuizAttempt::generate_valid_set] *)
Definition generate_valid_set (q : QuizAttempt) : result AnswerKeySet :=
  let n := length (answers q) in
  let s := usize_of_i32 (score q) in
  (* let num_mistakes = self.answers.len() - self.score as usize; *)
  if Z.of_nat n <? s then Err SubtractOverflow
  else
    let num_mistakes := Z.to_nat (Z.of_nat n - s) in
    let tries := answers_to_try num_mistakes in
    let* small_set :=
      flat_map_res
        (fun possible_mistakes =>
           map_res (fun ans => overwrite (answers q) possible_mistakes ans) tries)
        (combinations (seq 0 n) num_mistakes) in
    Ok (dedup list_cmp
          (sort_by list_cmp (filter (fun key => negb (contains_x key)) small_set))).

(** [AnswerKeySet::reduce] *)
Definition reduce (ks : AnswerKeySet) (q : QuizAttempt) : result AnswerKeySet :=
  filter_res (fun k => check q k) ks.

(** [base[1..].iter().fold(highest, |ans_set, att| ans_set.reduce(att))] *)
Fixpoint fold_reduce (ks : AnswerKeySet) (atts : list QuizAttempt)
  : result AnswerKeySet :=
  match atts with
  | [] => Ok ks
  | q :: atts' => let* ks' := reduce ks q in fold_reduce ks' atts'
  end.

(** [lens.iter().min()] and [lens.iter().max()] *)
Definition list_min (l : list nat) : option nat :=
  match l with
  | [] => None
  | x :: l' => Some (fold_left Nat.min l' x)
  end.

Definition list_max (l : list nat) : option nat :=
  match l with
  | [] => None
  | x :: l' => Some (fold_left Nat.max l' x)
  end.

Definition option_nat_eqb (o1 o2 : option nat) : bool :=
  match o1, o2 with
  | None, None => true
  | Some a, Some b => Nat.eqb a b
  | _, _ => false
  end.

Definition score_cmp (q1 q2 : QuizAttempt) : comparison := Z.compare (score q1) (score q2).

(** The part of [extract_attempts_from_file] after parsing: the length
    check, [sort] by score (the [Ord] of [QuizAttempt]) and [reverse]. *)
Definition prepare_attempts (loaded : list QuizAttempt) : result (list QuizAttempt) :=
  let lens := map (fun att => length (answers att)) loaded in
  if negb (option_nat_eqb (list_min lens) (list_max lens)) then Err UnequalLengths
  else Ok (rev (sort_by score_cmp loaded)).

(** The search of [main]: [base[0].generate_valid_set()] folded through
    [reduce] over [base[1..]]; [base[0]] on an empty vector panics. *)
Definition search (loaded : list QuizAttempt) : result AnswerKeySet :=
  let* base := prepare_attempts loaded in
  match base with
  | [] => Err IndexOutOfBounds
  | seed :: rest =>
      let* highest := generate_valid_set seed in
      fold_reduce highest rest
  end.

(** The strings written by [save_to_file]. *)
Definition search_strings (loaded : list QuizAttempt) : result (list string) :=
  let* ks := search loaded in Ok (map as_string ks).

(** ** Spec-side definitions *)

(** The naive enumeration of all length-[k] sequences over [{A, B, C, D}],
    in lexicographic order. *)
Fixpoint cartesian_power (k : nat) : list (list Answer) :=
  match k with
  | O => [[]]
  | S k' => flat_map (fun x => map (cons x) (cartesian_power k')) [A; B; C; D]
  end.

(** The number of positions [i] with [answers[i] = key[i]]. *)
Definition matching_positions (q : QuizAttempt) (key : AnswerKey) : nat :=
  length (filter (fun i => answer_eqb (nth i (answers q) X) (nth i key X))
            (seq 0 (length (answers q)))).

(** An attempt built directly, as the tests do. *)
Definition att (s : list Answer) (sc : Z) : QuizAttempt := {| answers := s; score := sc |}.

(** A Rust [bool] read from a [check] that did not panic. *)
Definition check_bool (q : QuizAttempt) (key : AnswerKey) : bool :=
  match check q key with Ok b => b | Err _ => false end.

(** Every key of the set has the attempt's length. *)
Definition lengths_match (q : QuizAttempt) (ks : AnswerKeySet) : Prop :=
  Forall (fun k => length k = length (answers q)) ks.

(** A Rust [i32]. *)
Definition i32_range (z : Z) : Prop := -2 ^ 31 <= z < 2 ^ 31.

(** An attempt of at most [i32::MAX] answers: the match count of [check]
    then fits in an [i32]. *)
Definition fits_i32 (q : QuizAttempt) : Prop := Z.of_nat (length (answers q)) < 2 ^ 31.

(** Strict and non-strict order of answer sequences. *)
Definition list_lt (l1 l2 : list Answer) : Prop := list_cmp l1 l2 = Lt.
Definition list_le (l1 l2 : list Answer) : Prop := list_cmp l1 l2 <> Gt.

Definition answer_dec (a b : Answer) : {a = b} + {a <> b}.
Proof. decide equality. Defined.

(** The candidates [generate_valid_set] builds for one set of positions
    to overwrite (the body of its [flat_map]). *)
Definition gen_candidates (q : QuizAttempt) (k : nat) (possible_mistakes : list nat)
  : result (list AnswerKey) :=
  map_res (fun ans => overwrite (answers q) possible_mistakes ans) (answers_to_try k).

(** The last steps of [generate_valid_set]: drop keys holding [X], [sort],
    [dedup]. *)
Definition keep_keys (small_set : list AnswerKey) : AnswerKeySet :=
  dedup list_cmp (sort_by list_cmp (filter (fun key => negb (contains_x key)) small_set)).

(** The number of mistakes [generate_valid_set] assumes. *)
Definition num_mistakes (q : QuizAttempt) : nat :=
  Z.to_nat (Z.of_nat (length (answers q)) - usize_of_i32 (score q)).

(** All attempts have answer sequences of one length (the check of
    [extract_attempts_from_file]). *)
Definition same_lengths (loaded : list QuizAttempt) : Prop :=
  forall q1 q2, In q1 loaded -> In q2 loaded -> length (answers q1) = length (answers q2).

(** * Properties *)

(** ** General facts about the error monad *)

Lemma map_res_length {T U : Type} (f : T -> result U) l r :
  map_res f l = Ok r -> length r = length l.
Proof.
  revert r; induction l as [|x l IH]; simpl; intros r H.
  - now inversion H.
  - destruct (f x); simpl in H; [|discriminate].
    destruct (map_res f l) eqn:E; simpl in H; [|discriminate].
    inversion H; subst; simpl; f_equal; auto.
Qed.

Lemma filter_res_ok {T : Type} (p : T -> result bool) (pb : T -> bool) l :
  (forall x, In x l -> p x = Ok (pb x)) -> filter_res p l = Ok (filter pb l).
Proof.
  induction l as [|x l IH]; simpl; intros H; [reflexivity|].
  rewrite (H x (or_introl eq_refl)); simpl.
  rewrite IH by (intros; apply H; auto); simpl.
  destruct (pb x); reflexivity.
Qed.

Lemma filter_res_incl {T : Type} (p : T -> result bool) l r :
  filter_res p l = Ok r -> forall y, In y r -> In y l.
Proof.
  revert r; induction l as [|x l IH]; simpl; intros r H y Hy.
  - inversion H; subst; contradiction.
  - destruct (p x) as [b|]; simpl in H; [|discriminate].
    destruct (filter_res p l) as [ys|] eqn:E; simpl in H; [|discriminate].
    inversion H; subst.
    destruct b; [destruct Hy as [<-|Hy]; [now left|] |]; right; eapply IH; eauto.
Qed.

(** ** [check] counts matching positions *)

Lemma answer_eqb_eq a b : answer_eqb a b = true <-> a = b.
Proof. destruct a, b; unfold answer_eqb; simpl; split; intros; congruence. Qed.

Lemma length_filter_shift (p : nat -> bool) n start :
  length (filter p (seq (S start) n)) = length (filter (fun i => p (S i)) (seq start n)).
Proof.
  revert start; induction n as [|n IH]; intros start; simpl; [reflexivity|].
  destruct (p (S start)); simpl; rewrite IH; reflexivity.
Qed.

Lemma match_sum_count (l1 l2 : list Answer) :
  length l1 = length l2 ->
  fold_right Z.add 0
    (map (fun '(x, y) => if answer_eqb x y then 1 else 0) (combine l1 l2)) =
  Z.of_nat (length (filter (fun i => answer_eqb (nth i l1 X) (nth i l2 X))
                      (seq 0 (length l1)))).
Proof.
  revert l2; induction l1 as [|x l1 IH]; intros [|y l2] Hl; simpl in *; try lia.
  destruct (answer_eqb x y); cbn [length];
    rewrite length_filter_shift, IH by lia; cbn beta iota; lia.
Qed.

Lemma sum_i32_from_spec acc l :
  Forall (fun x => 0 <= x) l -> 0 <= acc < 2 ^ 31 ->
  (acc + fold_right Z.add 0 l < 2 ^ 31 ->
     sum_i32_from acc l = Ok (acc + fold_right Z.add 0 l)) /\
  (2 ^ 31 <= acc + fold_right Z.add 0 l -> sum_i32_from acc l = Err AddOverflow).
Proof.
  revert acc; induction l as [|x l IH]; intros acc Hl Ha; cbn [sum_i32_from fold_right].
  - split; intros H; [f_equal; lia|lia].
  - inversion Hl as [|? ? Hx Hl']; subst.
    assert (Hr : 0 <= fold_right Z.add 0 l)
      by (clear -Hl'; induction Hl'; cbn [fold_right]; lia).
    split; intros H.
    + replace (andb _ _) with true
        by (symmetry; apply andb_true_iff; split; [apply Z.leb_le|apply Z.ltb_lt]; lia).
      rewrite (proj1 (IH (acc + x) Hl' ltac:(lia))) by lia. f_equal; lia.
    + destruct (Z.ltb_spec (acc + x) (2 ^ 31)).
      * replace (Z.leb _ _) with true by (symmetry; apply Z.leb_le; lia).
        rewrite andb_true_l. apply (IH (acc + x) Hl' ltac:(lia)); lia.
      * rewrite andb_false_r. reflexivity.
Qed.

Lemma match_terms_nonneg (l1 l2 : list Answer) :
  Forall (fun x => 0 <= x)
    (map (fun '(x, y) => if answer_eqb x y then 1 else 0) (combine l1 l2)).
Proof.
  apply Forall_forall. intros z Hz. apply in_map_iff in Hz as [[x y] [<- _]].
  destruct (answer_eqb x y); lia.
Qed.

Lemma check_ok q key :
  length (answers q) = length key ->
  Z.of_nat (matching_positions q key) < 2 ^ 31 ->
  check q key = Ok (Z.eqb (Z.of_nat (matching_positions q key)) (score q)).
Proof.
  intros Hl Hm. unfold check, sum_i32. unfold matching_positions in *.
  rewrite (proj2 (Nat.eqb_eq _ _) Hl). cbn [negb].
  rewrite <- (match_sum_count _ _ Hl) in *.
  rewrite (proj1 (sum_i32_from_spec 0 _ (match_terms_nonneg _ _) ltac:(lia)))
    by lia.
  reflexivity.
Qed.

Lemma check_overflow q key :
  length (answers q) = length key ->
  2 ^ 31 <= Z.of_nat (matching_positions q key) ->
  check q key = Err AddOverflow.
Proof.
  intros Hl Hm. unfold check, sum_i32. unfold matching_positions in *.
  rewrite (proj2 (Nat.eqb_eq _ _) Hl). cbn [negb].
  rewrite <- (match_sum_count _ _ Hl) in *.
  rewrite (proj2 (sum_i32_from_spec 0 _ (match_terms_nonneg _ _) ltac:(lia)))
    by lia.
  reflexivity.
Qed.

Lemma check_mismatch q key :
  length (answers q) <> length key -> check q key = Err LengthMismatch.
Proof.
  intros Hl. unfold check. rewrite (proj2 (Nat.eqb_neq _ _) Hl). reflexivity.
Qed.

Lemma matching_le_length q key : (matching_positions q key <= length (answers q))%nat.
Proof.
  unfold matching_positions. rewrite <- (length_seq (length (answers q)) 0) at 2.
  apply filter_length_le.
Qed.

Lemma check_true q key :
  check q key = Ok true ->
  length (answers q) = length key /\ Z.of_nat (matching_positions q key) = score q.
Proof.
  intros H.
  destruct (Nat.eq_dec (length (answers q)) (length key)) as [Hl|Hl].
  - destruct (Z.ltb_spec (Z.of_nat (matching_positions q key)) (2 ^ 31)) as [Hm|Hm].
    + rewrite check_ok in H by assumption. injection H as H.
      split; [exact Hl|]. now apply Z.eqb_eq.
    + rewrite check_overflow in H by assumption. discriminate.
  - rewrite check_mismatch in H by exact Hl. discriminate.
Qed.

Lemma check_err_cases q key e :
  check q key = Err e ->
  (e = LengthMismatch /\ length key <> length (answers q)) \/
  (e = AddOverflow /\ length key = length (answers q) /\
   2 ^ 31 <= Z.of_nat (matching_positions q key)).
Proof.
  intros H.
  destruct (Nat.eq_dec (length (answers q)) (length key)) as [Hl|Hl].
  - destruct (Z.ltb_spec (Z.of_nat (matching_positions q key)) (2 ^ 31)) as [Hm|Hm].
    + rewrite check_ok in H by assumption. discriminate.
    + rewrite check_overflow in H by assumption. injection H as <-. right; auto.
  - rewrite check_mismatch in H by exact Hl. injection H as <-. left; auto.
Qed.

Lemma check_ok_fits q key :
  fits_i32 q -> length (answers q) = length key ->
  check q key = Ok (Z.eqb (Z.of_nat (matching_positions q key)) (score q)).
Proof.
  intros Hf Hl. apply check_ok; [exact Hl|].
  pose proof (matching_le_length q key). unfold fits_i32 in Hf. lia.
Qed.

Lemma check_bool_spec q key :
  fits_i32 q -> length (answers q) = length key ->
  check_bool q key = Z.eqb (Z.of_nat (matching_positions q key)) (score q).
Proof. intros Hf Hl. unfold check_bool. now rewrite check_ok_fits. Qed.

(** ** [reduce] is a filter *)


Lemma reduce_ok ks q :
  fits_i32 q -> lengths_match q ks -> reduce ks q = Ok (filter (check_bool q) ks).
Proof.
  intros Hf H. unfold reduce. apply filter_res_ok.
  intros k Hk. unfold check_bool.
  unfold lengths_match in H; rewrite Forall_forall in H.
  rewrite check_ok_fits by (auto; symmetry; auto). reflexivity.
Qed.

Lemma lengths_match_filter q f ks :
  lengths_match q ks -> lengths_match q (filter f ks).
Proof.
  unfold lengths_match; rewrite !Forall_forall; intros H k Hk.
  apply filter_In in Hk; apply H, Hk.
Qed.

Lemma fold_reduce_ok ks atts :
  Forall fits_i32 atts ->
  Forall (fun q => lengths_match q ks) atts ->
  fold_reduce ks atts = Ok (filter (fun k => forallb (fun q => check_bool q k) atts) ks).
Proof.
  revert ks; induction atts as [|q atts IH]; intros ks Hf H; simpl.
  - f_equal. induction ks as [|k ks IHk]; simpl; f_equal; auto.
  - inversion H as [|? ? Hq Hrest]; subst. inversion Hf as [|? ? Hfq Hfrest]; subst.
    rewrite reduce_ok by assumption; simpl.
    rewrite IH; [|exact Hfrest|].
    + f_equal. clear.
      induction ks as [|k ks IHk]; simpl; [reflexivity|].
      destruct (check_bool q k); simpl; [destruct (forallb _ _); simpl|]; try rewrite IHk; reflexivity.
    + eapply Forall_impl; [|exact Hrest]. intros q' Hq'. now apply lengths_match_filter.
Qed.

Lemma fold_reduce_incl ks atts r :
  fold_reduce ks atts = Ok r -> forall k, In k r -> In k ks.
Proof.
  revert ks; induction atts as [|q atts IH]; simpl; intros ks H k Hk.
  - inversion H; subst; exact Hk.
  - unfold bind in H. destruct (reduce ks q) as [ks'|] eqn:E; [|discriminate].
    eapply filter_res_incl; [exact E|]. eapply IH; eauto.
Qed.

(** ** [sort] and [dedup] keep the elements *)

Section SortDedupFacts.
Context {T : Type} (cmp : T -> T -> comparison).

Lemma insert_by_perm x l : Permutation (insert_by cmp x l) (x :: l).
Proof.
  induction l as [|y l IH]; simpl; [reflexivity|].
  destruct (cmp y x); try reflexivity.
  rewrite IH. apply perm_swap.
Qed.

Lemma sort_by_perm l : Permutation (sort_by cmp l) l.
Proof.
  induction l as [|x l IH]; simpl; [reflexivity|].
  rewrite insert_by_perm. now apply perm_skip.
Qed.

Lemma dedup_from_incl x l y : In y (dedup_from cmp x l) -> y = x \/ In y l.
Proof.
  revert x; induction l as [|z l IH]; simpl; intros x H.
  - destruct H as [<-|[]]; now left.
  - destruct (cmp x z).
    + destruct (IH x H); auto.
    + destruct H as [<-|H]; [now left|]. destruct (IH z H); auto.
    + destruct H as [<-|H]; [now left|]. destruct (IH z H); auto.
Qed.

Lemma dedup_incl l y : In y (dedup cmp l) -> In y l.
Proof.
  destruct l as [|x l]; simpl; [trivial|].
  intros H; destruct (dedup_from_incl x l y H); auto.
Qed.
End SortDedupFacts.

(** ** [generate_valid_set] never yields the sentinel *)

Lemma contains_x_false key : contains_x key = false -> ~ In X key.
Proof.
  unfold contains_x. intros H Hin.
  assert (existsb (answer_eqb X) key = true) as Ht
    by (apply existsb_exists; exists X; split; [exact Hin|reflexivity]).
  congruence.
Qed.

Lemma generate_valid_set_no_x q ks :
  generate_valid_set q = Ok ks -> forall k, In k ks -> ~ In X k.
Proof.
  unfold generate_valid_set. intros H k Hk.
  destruct (_ <? _); [discriminate|].
  destruct (flat_map_res _ _) as [small|]; simpl in H; [|discriminate].
  inversion H; subst ks.
  apply dedup_incl in Hk.
  apply (Permutation_in _ (sort_by_perm _ _)) in Hk.
  apply filter_In in Hk as [_ Hk].
  apply contains_x_false. now destruct (contains_x k).
Qed.

Lemma as_string_no_x key : ~ In X key -> ~ In "X"%char (list_ascii_of_string (as_string key)).
Proof.
  unfold as_string. rewrite list_ascii_of_string_of_list_ascii.
  intros Hx Hin. apply in_map_iff in Hin as [a [Ha Hin]].
  destruct a; try discriminate. contradiction.
Qed.

(** ** Small facts used by the boundary cases *)


Lemma usize_of_i32_nonneg z : 0 <= z < 2 ^ 64 -> usize_of_i32 z = z.
Proof. intros H. unfold usize_of_i32. apply Z.mod_small; lia. Qed.

Lemma usize_of_i32_neg z : i32_range z -> z < 0 -> usize_of_i32 z = z + 2 ^ 64.
Proof.
  intros H Hn. unfold usize_of_i32, i32_range in *.
  rewrite <- (Z.mod_small (z + 2 ^ 64) (2 ^ 64)) by lia.
  rewrite <- Z.add_mod_idemp_r, Z.mod_same, Z.add_0_r by lia. reflexivity.
Qed.

Lemma combinations_zero {T : Type} (l : list T) : combinations l 0 = [[]].
Proof. destruct l; reflexivity. Qed.

Lemma answers_to_try_zero : answers_to_try 0 = [[]].
Proof. reflexivity. Qed.

Lemma forallb_perm {T : Type} (f : T -> bool) l1 l2 :
  Permutation l1 l2 -> forallb f l1 = forallb f l2.
Proof.
  intros HP.
  destruct (forallb f l1) eqn:E1, (forallb f l2) eqn:E2; try reflexivity.
  - rewrite forallb_forall in E1.
    assert (forallb f l2 = true) as H; [|congruence].
    apply forallb_forall; intros x Hx.
    apply E1, (Permutation_in _ (Permutation_sym HP)), Hx.
  - rewrite forallb_forall in E2.
    assert (forallb f l1 = true) as H; [|congruence].
    apply forallb_forall; intros x Hx.
    apply E2, (Permutation_in _ HP), Hx.
Qed.

Lemma map_res_err {T U : Type} (f : T -> result U) l e :
  map_res f l = Err e -> exists x, In x l /\ f x = Err e.
Proof.
  induction l as [|x l IH]; simpl; intros H; [discriminate|].
  destruct (f x) as [y|e'] eqn:Ef; simpl in H.
  - destruct (map_res f l) eqn:El; simpl in H; [discriminate|].
    inversion H; subst. destruct IH as [z [Hz Hfz]]; [reflexivity|].
    exists z; auto.
  - inversion H; subst. exists x; auto.
Qed.

Lemma map_res_err_one {T U : Type} (f : T -> result U) l e :
  (forall x e', f x = Err e' -> e' = e) ->
  (exists x, In x l /\ exists e', f x = Err e') ->
  map_res f l = Err e.
Proof.
  intros Hf. induction l as [|x l IH]; simpl; intros [z [Hz [e' He']]]; [contradiction|].
  destruct (f x) as [y|e''] eqn:Ef; simpl.
  - destruct Hz as [<-|Hz]; [congruence|].
    rewrite IH by eauto. reflexivity.
  - f_equal. eapply Hf; eauto.
Qed.

Lemma answer_from_err c e : answer_from c = Err e -> e = InvalidSymbol.
Proof.
  unfold answer_from.
  destruct (Ascii.eqb c "A"), (Ascii.eqb c "B"), (Ascii.eqb c "C"),
    (Ascii.eqb c "D"), (Ascii.eqb c "X"); intros H; inversion H; reflexivity.
Qed.

(** ** The derived order on answer sequences *)

Lemma answer_cmp_eq a b : answer_cmp a b = Eq <-> a = b.
Proof. destruct a, b; unfold answer_cmp; simpl; split; intros; congruence. Qed.

Lemma answer_cmp_sym a b : answer_cmp b a = CompOpp (answer_cmp a b).
Proof. destruct a, b; reflexivity. Qed.

Lemma answer_cmp_trans a b c :
  answer_cmp a b = Lt -> answer_cmp b c = Lt -> answer_cmp a c = Lt.
Proof. destruct a, b, c; unfold answer_cmp; simpl; congruence. Qed.

Lemma list_cmp_eq l1 l2 : list_cmp l1 l2 = Eq <-> l1 = l2.
Proof.
  revert l2; induction l1 as [|x l1 IH]; intros [|y l2]; simpl;
    try (split; intros; congruence).
  destruct (answer_cmp x y) eqn:E.
  - apply answer_cmp_eq in E; subst. rewrite IH. split; congruence.
  - split; [discriminate|]. intros [= <- _]. destruct x; discriminate.
  - split; [discriminate|]. intros [= <- _]. destruct x; discriminate.
Qed.

Lemma list_cmp_sym l1 l2 : list_cmp l2 l1 = CompOpp (list_cmp l1 l2).
Proof.
  revert l2; induction l1 as [|x l1 IH]; intros [|y l2]; simpl; try reflexivity.
  rewrite (answer_cmp_sym x y). destruct (answer_cmp x y); simpl; auto.
Qed.


Lemma list_cmp_trans l1 l2 l3 :
  list_cmp l1 l2 = Lt -> list_cmp l2 l3 = Lt -> list_cmp l1 l3 = Lt.
Proof.
  revert l2 l3; induction l1 as [|x l1 IH]; intros [|y l2] [|z l3]; simpl;
    try congruence.
  destruct (answer_cmp x y) eqn:Exy; try congruence;
    destruct (answer_cmp y z) eqn:Eyz; try congruence; intros H1 H2.
  - apply answer_cmp_eq in Exy, Eyz; subst.
    rewrite (proj2 (answer_cmp_eq z z) eq_refl). eauto.
  - apply answer_cmp_eq in Exy; subst. now rewrite Eyz.
  - apply answer_cmp_eq in Eyz; subst. now rewrite Exy.
  - now rewrite (answer_cmp_trans _ _ _ Exy Eyz).
Qed.

Lemma list_lt_trans : Transitive list_lt.
Proof. intros l1 l2 l3. apply list_cmp_trans. Qed.

Lemma list_lt_irrefl l : ~ list_lt l l.
Proof. unfold list_lt. rewrite (proj2 (list_cmp_eq l l) eq_refl). discriminate. Qed.

Lemma list_lt_asym l1 l2 : list_lt l1 l2 -> ~ list_lt l2 l1.
Proof. unfold list_lt. rewrite (list_cmp_sym l1 l2). intros ->. discriminate. Qed.

Lemma list_le_lt_trans l1 l2 l3 : list_le l1 l2 -> list_lt l2 l3 -> list_lt l1 l3.
Proof.
  unfold list_le, list_lt. intros H12 H23.
  destruct (list_cmp l1 l2) eqn:E; try congruence.
  - apply list_cmp_eq in E; subst; exact H23.
  - eapply list_cmp_trans; eauto.
Qed.

(** ** [sort] then [dedup] gives a strictly increasing list *)

Lemma insert_by_sorted x l :
  Sorted list_le l -> Sorted list_le (insert_by list_cmp x l).
Proof.
  induction 1 as [|y l Hs IH Hhd]; simpl; [repeat constructor|].
  destruct (list_cmp y x) eqn:E.
  - apply list_cmp_eq in E; subst.
    constructor; [constructor; auto|]. constructor.
    unfold list_le. rewrite (proj2 (list_cmp_eq x x) eq_refl). discriminate.
  - constructor; [exact IH|].
    destruct l as [|z l]; simpl; [constructor; unfold list_le; congruence|].
    inversion Hhd; subst.
    destruct (list_cmp z x); constructor; unfold list_le in *; try congruence.
  - constructor; [constructor; auto|]. constructor.
    unfold list_le. rewrite list_cmp_sym, E. discriminate.
Qed.

Lemma sort_by_sorted l : Sorted list_le (sort_by list_cmp l).
Proof.
  induction l as [|x l IH]; simpl; [constructor|]. now apply insert_by_sorted.
Qed.

Lemma dedup_from_head x l : exists t, dedup_from list_cmp x l = x :: t.
Proof.
  revert x; induction l as [|y l IH]; intros x; simpl; [eauto|].
  destruct (list_cmp x y); eauto.
Qed.

Lemma dedup_from_sorted x l :
  Sorted list_le (x :: l) -> Sorted list_lt (dedup_from list_cmp x l).
Proof.
  revert x; induction l as [|y l IH]; intros x Hs; simpl; [repeat constructor|].
  inversion Hs as [|? ? Hs' Hhd]; subst. inversion Hhd; subst.
  destruct (list_cmp x y) eqn:E.
  - apply list_cmp_eq in E; subst. now apply IH.
  - destruct (dedup_from_head y l) as [t Ht].
    specialize (IH y Hs'). rewrite Ht in *.
    constructor; [exact IH|]. constructor. exact E.
  - unfold list_le in *. contradiction.
Qed.

Lemma dedup_from_in x l y : In y (dedup_from list_cmp x l) <-> y = x \/ In y l.
Proof.
  split; [apply dedup_from_incl|].
  revert x; induction l as [|z l IH]; intros x H; simpl.
  - destruct H as [->|[]]; now left.
  - destruct (list_cmp x z) eqn:E.
    + apply list_cmp_eq in E; subst. apply IH.
      destruct H as [->|[->|H]]; auto.
    + destruct H as [->|[->|H]]; [now left| |]; right; apply IH; auto.
    + destruct H as [->|[->|H]]; [now left| |]; right; apply IH; auto.
Qed.

Lemma sort_dedup_spec l :
  StronglySorted list_lt (dedup list_cmp (sort_by list_cmp l)) /\
  (forall y, In y (dedup list_cmp (sort_by list_cmp l)) <-> In y l).
Proof.
  pose proof (sort_by_sorted l) as Hs.
  pose proof (sort_by_perm list_cmp l) as Hp.
  destruct (sort_by list_cmp l) as [|x t] eqn:E; simpl.
  - apply Permutation_nil in Hp; subst. split; [constructor|tauto].
  - split.
    + apply Sorted_StronglySorted; [exact list_lt_trans|]. now apply dedup_from_sorted.
    + intros y. rewrite dedup_from_in.
      split; intros H.
      * apply (Permutation_in _ Hp). destruct H as [->|H]; [now left|now right].
      * apply (Permutation_in _ (Permutation_sym Hp)) in H. destruct H; auto.
Qed.

(** Two strictly increasing lists with the same elements are equal. *)
Lemma strongly_sorted_unique l1 l2 :
  StronglySorted list_lt l1 -> StronglySorted list_lt l2 ->
  (forall y, In y l1 <-> In y l2) -> l1 = l2.
Proof.
  revert l2; induction l1 as [|x l1 IH]; intros [|y l2] H1 H2 Hin.
  - reflexivity.
  - exfalso. apply (proj2 (Hin y)). now left.
  - exfalso. apply (proj1 (Hin x)). now left.
  - apply StronglySorted_inv in H1 as [H1 F1].
    apply StronglySorted_inv in H2 as [H2 F2].
    rewrite Forall_forall in F1, F2.
    assert (x = y) as <-.
    { destruct (proj1 (Hin x) (or_introl eq_refl)) as [->|Hx]; [reflexivity|].
      destruct (proj2 (Hin y) (or_introl eq_refl)) as [->|Hy]; [reflexivity|].
      exfalso. eapply list_lt_asym; [apply F1, Hy | apply F2, Hx]. }
    f_equal. apply IH; auto.
    intros z; split; intros Hz.
    + destruct (proj1 (Hin z) (or_intror Hz)) as [->|H]; [|exact H].
      exfalso; eapply list_lt_irrefl; apply F1, Hz.
    + destruct (proj2 (Hin z) (or_intror Hz)) as [->|H]; [|exact H].
      exfalso; eapply list_lt_irrefl; apply F2, Hz.
Qed.

(** ** The itertools adaptors enumerate what they should *)

Section Enumerations.
Context {T : Type}.

Lemma picks_perm (l : list T) y r : In (y, r) (picks l) -> Permutation l (y :: r).
Proof.
  revert y r; induction l as [|x l IH]; simpl; intros y r H; [contradiction|].
  destruct H as [[= <- <-]|H]; [reflexivity|].
  apply in_map_iff in H as [[z r'] [[= <- <-] Hin]].
  rewrite (IH _ _ Hin). apply perm_swap.
Qed.

Lemma picks_complete (l : list T) y :
  In y l -> exists r, In (y, r) (picks l) /\ Permutation l (y :: r).
Proof.
  induction l as [|x l IH]; simpl; intros H; [contradiction|].
  destruct H as [<-|H].
  - exists l; split; [now left|reflexivity].
  - destruct (IH H) as [r [Hr Hp]].
    exists (x :: r); split.
    + right. apply in_map_iff. exists (y, r); auto.
    + rewrite Hp. apply perm_swap.
Qed.

(** The full-length arrangements of a list are its permutations. *)
Lemma permutations_spec (c s : list T) :
  In s (permutations c (length c)) <-> Permutation c s.
Proof.
  remember (length c) as k eqn:Hk. revert c s Hk.
  induction k as [|k IH]; intros c s Hk; simpl.
  - destruct c; [|discriminate]. split.
    + intros [<-|[]]; reflexivity.
    + intros Hp. apply Permutation_nil in Hp; subst; now left.
  - split.
    + intros H. apply in_flat_map in H as [[y r] [Hyr Hs]].
      apply in_map_iff in Hs as [s' [<- Hs']].
      pose proof (picks_perm _ _ _ Hyr) as Hp.
      apply Permutation_length in Hp as Hlen. simpl in Hlen.
      rewrite Hp. apply perm_skip. apply IH; [lia|exact Hs'].
    + intros Hp. destruct s as [|y s'].
      { apply Permutation_length in Hp. simpl in Hp. lia. }
      assert (In y c) as Hy by (apply (Permutation_in _ (Permutation_sym Hp)); now left).
      destruct (picks_complete _ _ Hy) as [r [Hr Hcr]].
      apply in_flat_map. exists (y, r). split; [exact Hr|].
      apply in_map. apply IH.
      * apply Permutation_length in Hcr. simpl in Hcr. lia.
      * apply Permutation_cons_inv with y. now rewrite <- Hcr.
Qed.

Lemma cwr_cons_S (x : T) rest k :
  combinations_with_replacement (x :: rest) (S k) =
  map (cons x) (combinations_with_replacement (x :: rest) k) ++
  combinations_with_replacement rest (S k).
Proof. reflexivity. Qed.

Lemma cwr_sound (pool : list T) k c :
  In c (combinations_with_replacement pool k) ->
  length c = k /\ Forall (fun a => In a pool) c.
Proof.
  revert k c; induction pool as [|x rest IHp]; intros k.
  - destruct k; simpl; intros c; [intros [<-|[]]; split; auto|contradiction].
  - induction k as [|k IHk]; intros c; [intros [<-|[]]; split; auto|].
    rewrite cwr_cons_S. intros H. apply in_app_or in H as [H|H].
    + apply in_map_iff in H as [c' [<- Hc']].
      destruct (IHk c' Hc') as [Hl Hf]. simpl; split; [lia|].
      constructor; [now left|].
      eapply Forall_impl; [|exact Hf]. simpl; auto.
    + destruct (IHp _ _ H) as [Hl Hf]. split; [exact Hl|].
      eapply Forall_impl; [|exact Hf]. simpl; auto.
Qed.

Lemma cwr_complete (dec : forall a b : T, {a = b} + {a <> b}) (pool : list T) k s :
  length s = k -> Forall (fun a => In a pool) s ->
  exists c, In c (combinations_with_replacement pool k) /\ Permutation c s.
Proof.
  revert k s; induction pool as [|x rest IHp]; intros k s Hl Hf.
  - destruct s as [|a s]; [subst; exists []; simpl; auto|].
    inversion Hf; contradiction.
  - revert s Hl Hf. induction k as [|k IHk]; intros s Hl Hf.
    + destruct s; [|discriminate]. exists []; simpl; auto.
    + rewrite cwr_cons_S.
      destruct (in_dec dec x s) as [Hx|Hx].
      * apply in_split in Hx as [s1 [s2 ->]].
        destruct (IHk (s1 ++ s2)) as [c' [Hc' Hp']].
        { rewrite length_app in *; simpl in Hl; lia. }
        { apply Forall_app in Hf as [Hf1 Hf2]. inversion Hf2; subst.
          apply Forall_app; auto. }
        exists (x :: c'); split.
        -- apply in_or_app; left; now apply in_map.
        -- rewrite Hp'. apply Permutation_middle.
      * destruct (IHp (S k) s Hl) as [c [Hc Hp]].
        { rewrite Forall_forall in *. intros a Ha.
          destruct (Hf a Ha) as [<-|H]; [contradiction|exact H]. }
        exists c; split; [apply in_or_app; now right|exact Hp].
Qed.
End Enumerations.

(** ** The naive enumeration *)


Lemma cartesian_power_spec k s :
  In s (cartesian_power k) <-> length s = k /\ Forall (fun a => In a [A; B; C; D]) s.
Proof.
  revert s; induction k as [|k IH]; intros s; cbn [cartesian_power].
  - simpl. split; [intros [<-|[]]; auto|].
    intros [Hl _]. destruct s; [now left|discriminate].
  - rewrite in_flat_map. split.
    + intros [x [Hx Hs]]. apply in_map_iff in Hs as [s' [<- Hs']].
      apply IH in Hs' as [Hl Hf]. simpl; split; [lia|constructor; auto].
    + intros [Hl Hf]. destruct s as [|x s']; [discriminate|].
      inversion Hf; subst. exists x; split; [assumption|].
      apply in_map, IH. simpl in Hl; split; [lia|assumption].
Qed.

Lemma length_cartesian_power k : length (cartesian_power k) = (4 ^ k)%nat.
Proof.
  induction k as [|k IH]; simpl; [reflexivity|].
  rewrite !length_app, !length_map, IH. simpl. lia.
Qed.

Lemma strongly_sorted_app (l1 l2 : list (list Answer)) :
  StronglySorted list_lt l1 -> StronglySorted list_lt l2 ->
  (forall a b, In a l1 -> In b l2 -> list_lt a b) ->
  StronglySorted list_lt (l1 ++ l2).
Proof.
  induction 1 as [|x l1 Hs IH Hf]; intros H2 Hx; simpl; [exact H2|].
  constructor.
  - apply IH; [exact H2|]. intros a b Ha Hb. apply Hx; simpl; auto.
  - apply Forall_app; split; [exact Hf|].
    apply Forall_forall. intros b Hb. apply Hx; simpl; auto.
Qed.

Lemma strongly_sorted_map_cons x (l : list (list Answer)) :
  StronglySorted list_lt l -> StronglySorted list_lt (map (cons x) l).
Proof.
  assert (Hx : answer_cmp x x = Eq) by (apply answer_cmp_eq; reflexivity).
  induction 1 as [|y l Hs IH Hf]; simpl; constructor; [exact IH|].
  apply Forall_map. eapply Forall_impl; [|exact Hf].
  intros z Hz. unfold list_lt in *; simpl. now rewrite Hx.
Qed.

Lemma strongly_sorted_prefixes (pool : list Answer) (l : list (list Answer)) :
  StronglySorted (fun a b => answer_cmp a b = Lt) pool ->
  StronglySorted list_lt l ->
  StronglySorted list_lt (flat_map (fun x => map (cons x) l) pool).
Proof.
  intros Hp Hl. induction Hp as [|x pool Hs IH Hf]; simpl; [constructor|].
  apply strongly_sorted_app; [now apply strongly_sorted_map_cons|exact IH|].
  intros a b Ha Hb.
  apply in_map_iff in Ha as [a' [<- _]].
  apply in_flat_map in Hb as [y [Hy Hb]]. apply in_map_iff in Hb as [b' [<- _]].
  rewrite Forall_forall in Hf. unfold list_lt; simpl. now rewrite (Hf y Hy).
Qed.

Lemma cartesian_power_sorted k : StronglySorted list_lt (cartesian_power k).
Proof.
  induction k as [|k IH]; cbn [cartesian_power]; [repeat constructor|].
  apply strongly_sorted_prefixes; [|exact IH].
  repeat constructor.
Qed.

(** The sequences tried before sorting are those of length [k] over
    [A B C D], each permutation of a sorted selection. *)
Lemma tried_sequences_spec k s :
  In s (flat_map (fun comb => permutations comb k)
          (combinations_with_replacement [A; B; C; D] k)) <->
  length s = k /\ Forall (fun a => In a [A; B; C; D]) s.
Proof.
  rewrite in_flat_map. split.
  - intros [c [Hc Hs]].
    destruct (cwr_sound _ _ _ Hc) as [Hl Hf].
    rewrite <- Hl in Hs. apply permutations_spec in Hs.
    split; [rewrite <- (Permutation_length Hs); exact Hl|].
    eapply Permutation_Forall; eauto.
  - intros [Hl Hf].
    destruct (cwr_complete answer_dec _ _ _ Hl Hf) as [c [Hc Hp]].
    exists c; split; [exact Hc|].
    destruct (cwr_sound _ _ _ Hc) as [Hlc _].
    rewrite <- Hlc. now apply permutations_spec.
Qed.

(** ** Attempts with [2^31] or more answers *)

Lemma filter_res_length {T : Type} (p : T -> result bool) l r :
  filter_res p l = Ok r -> (length r <= length l)%nat.
Proof.
  revert r; induction l as [|x l IH]; simpl; intros r H.
  - injection H as <-. simpl. lia.
  - destruct (p x) as [b|e]; simpl in H; [|discriminate].
    destruct (filter_res p l) as [ys|e]; simpl in H; [|discriminate].
    injection H as <-. specialize (IH ys eq_refl).
    destruct b; simpl; lia.
Qed.

Lemma nth_repeat_below (a d : Answer) n i : (i < n)%nat -> nth i (repeat a n) d = a.
Proof.
  revert i; induction n as [|n IH]; intros [|i] Hi; simpl; try lia; auto.
  apply IH; lia.
Qed.

Lemma filter_const {T : Type} (b : bool) (l : list T) :
  filter (fun _ => b) l = if b then l else [].
Proof. induction l as [|x l IH]; simpl; destruct b; congruence. Qed.

Lemma matching_positions_repeat a b n s :
  matching_positions (att (repeat a n) s) (repeat b n) =
  if answer_eqb a b then n else 0%nat.
Proof.
  unfold matching_positions. cbn [answers att]. rewrite repeat_length.
  rewrite (filter_ext_in _ (fun _ => answer_eqb a b)).
  - rewrite filter_const. destruct (answer_eqb a b); [apply length_seq|reflexivity].
  - intros i Hi. apply in_seq in Hi. rewrite !nth_repeat_below by lia. reflexivity.
Qed.

Lemma lengths_match_repeat a b n s :
  lengths_match (att (repeat a n) s) [repeat b n].
Proof.
  unfold lengths_match. cbn [answers att]. repeat constructor.
  now rewrite !repeat_length.
Qed.

Lemma check_repeat_overflow a n s :
  2 ^ 31 <= Z.of_nat n -> check (att (repeat a n) s) (repeat a n) = Err AddOverflow.
Proof.
  intros Hn. apply check_overflow.
  - cbn [answers att]. now rewrite !repeat_length.
  - rewrite matching_positions_repeat.
    replace (answer_eqb a a) with true by (symmetry; now apply answer_eqb_eq).
    exact Hn.
Qed.

Lemma check_repeat_disjoint n : check (att (repeat B n) 1) (repeat A n) = Ok false.
Proof.
  rewrite check_ok.
  - rewrite matching_positions_repeat. reflexivity.
  - cbn [answers att]. now rewrite !repeat_length.
  - rewrite matching_positions_repeat. simpl. lia.
Qed.

Lemma fold_reduce_repeat_orders n :
  2 ^ 31 <= Z.of_nat n ->
  fold_reduce [repeat A n] [att (repeat B n) 1; att (repeat A n) 0] = Ok [] /\
  fold_reduce [repeat A n] [att (repeat A n) 0; att (repeat B n) 1] = Err AddOverflow.
Proof.
  intros Hn. cbn [fold_reduce]. unfold reduce. cbn [filter_res].
  rewrite check_repeat_disjoint, check_repeat_overflow by exact Hn.
  split; reflexivity.
Qed.

(** * Claims *)

(** ** C1 *)

(** C1: with the single attempt ["AB"] of score 1, the search keeps the key
    [AB], which fails the seed attempt's own [check] (it has two matches,
    not one). *)
Theorem search_keeps_key_failing_seed :
  search [att [A; B] 1] = Ok [[A; A]; [A; B]; [A; C]; [A; D]; [B; B]; [C; B]; [D; B]] /\
  check (att [A; B] 1) [A; B] = Ok false.
Proof. split; vm_compute; reflexivity. Qed.

(** ** C2 *)

(** C2: for the seed ["AB"] with score 1 the generator produces seven keys,
    [AB] among them; reducing with ["AA"] of score 2 leaves exactly [AA]. *)
Theorem generate_AB_score_1 :
  generate_valid_set (att [A; B] 1) =
    Ok [[A; A]; [A; B]; [A; C]; [A; D]; [B; B]; [C; B]; [D; B]] /\
  (let* g := generate_valid_set (att [A; B] 1) in reduce g (att [A; A] 2)) = Ok [[A; A]].
Proof. split; vm_compute; reflexivity. Qed.

(** ** C3 *)

(** C3, refuted: [check] of an attempt of [2^31] answers against its own
    answers (lengths equal) does not return a boolean: the [i32] sum of the
    matches overflows and [check] panics. *)
Lemma check_counts_matches_overflow :
  length (answers (att (repeat A (Z.to_nat (2 ^ 31))) 0)) =
    length (repeat A (Z.to_nat (2 ^ 31))) /\
  check (att (repeat A (Z.to_nat (2 ^ 31))) 0) (repeat A (Z.to_nat (2 ^ 31))) =
    Err AddOverflow.
Proof.
  split; [cbn [answers att]; reflexivity|].
  apply check_repeat_overflow. rewrite Z2Nat.id by lia. lia.
Qed.

(** C3, as amended: on keys of the attempt's length with fewer than [2^31]
    matching positions, [check] returns a boolean, true exactly when the
    number of positions [i] with [answers[i] = key[i]] equals the score;
    with [2^31] or more matching positions the [i32] sum overflows and
    [check] panics; on other lengths it fails with [LengthMismatch]. *)
Theorem check_counts_matches q key :
  (length (answers q) = length key ->
   Z.of_nat (matching_positions q key) < 2 ^ 31 ->
   exists b, check q key = Ok b /\
             (b = true <-> Z.of_nat (matching_positions q key) = score q)) /\
  (length (answers q) = length key ->
   2 ^ 31 <= Z.of_nat (matching_positions q key) ->
   check q key = Err AddOverflow) /\
  (length (answers q) <> length key -> check q key = Err LengthMismatch).
Proof.
  split; [|split].
  - intros Hl Hm. rewrite check_ok by assumption.
    eexists; split; [reflexivity|]. apply Z.eqb_eq.
  - apply check_overflow.
  - apply check_mismatch.
Qed.

Lemma check_counts_matches_witness :
  (exists b, check (att [A; A] 1) [A; B] = Ok b /\
             (b = true <-> Z.of_nat (matching_positions (att [A; A] 1) [A; B]) =
                           score (att [A; A] 1))) /\
  check (att (repeat C (Z.to_nat (2 ^ 31))) 5) (repeat C (Z.to_nat (2 ^ 31))) =
    Err AddOverflow /\
  check (att [A] 2) [A; B] = Err LengthMismatch.
Proof.
  split; [|split].
  - apply (proj1 (check_counts_matches (att [A; A] 1) [A; B])); [reflexivity|].
    vm_compute. reflexivity.
  - apply (proj1 (proj2 (check_counts_matches
      (att (repeat C (Z.to_nat (2 ^ 31))) 5) (repeat C (Z.to_nat (2 ^ 31)))))).
    + cbn [answers att]. reflexivity.
    + rewrite matching_positions_repeat. cbn [answer_eqb answer_index Nat.eqb].
      rewrite Z2Nat.id by lia. lia.
  - apply (proj2 (proj2 (check_counts_matches (att [A] 2) [A; B]))). simpl. discriminate.
Defined.

(** ** C4 *)

(** C4, refuted: with the single key [A...A] of [2^31] letters, folding
    [reduce] over an attempt [B...B] of score 1 and an attempt [A...A] of
    score 0 (every key of the attempts' length) gives an empty set in one
    order and the [i32] overflow panic of [check] in the other. *)
Lemma reduce_order_overflow :
  lengths_match (att (repeat B (Z.to_nat (2 ^ 31))) 1) [repeat A (Z.to_nat (2 ^ 31))] /\
  lengths_match (att (repeat A (Z.to_nat (2 ^ 31))) 0) [repeat A (Z.to_nat (2 ^ 31))] /\
  fold_reduce [repeat A (Z.to_nat (2 ^ 31))]
    [att (repeat B (Z.to_nat (2 ^ 31))) 1; att (repeat A (Z.to_nat (2 ^ 31))) 0] = Ok [] /\
  fold_reduce [repeat A (Z.to_nat (2 ^ 31))]
    [att (repeat A (Z.to_nat (2 ^ 31))) 0; att (repeat B (Z.to_nat (2 ^ 31))) 1] =
    Err AddOverflow.
Proof.
  split; [apply lengths_match_repeat|split; [apply lengths_match_repeat|]].
  apply fold_reduce_repeat_orders. rewrite Z2Nat.id by lia. lia.
Qed.

(** C4, as amended: a [reduce] that returns never grows the key set; a
    [reduce] by an attempt of at most [i32::MAX] answers, whose length every
    key shares, returns; and folding [reduce] over such attempts gives the
    same final set for every order of the attempts. *)
Theorem reduce_shrinks_and_commutes :
  (forall ks q r, reduce ks q = Ok r -> (length r <= length ks)%nat) /\
  (forall ks q, fits_i32 q -> lengths_match q ks ->
     exists r, reduce ks q = Ok r /\ (length r <= length ks)%nat) /\
  (forall ks atts1 atts2, Permutation atts1 atts2 ->
     Forall fits_i32 atts1 ->
     Forall (fun q => lengths_match q ks) atts1 ->
     fold_reduce ks atts1 = fold_reduce ks atts2).
Proof.
  split; [|split].
  - intros ks q r H. exact (filter_res_length _ _ _ H).
  - intros ks q Hf H. exists (filter (check_bool q) ks).
    split; [now apply reduce_ok | apply filter_length_le].
  - intros ks atts1 atts2 HP Hf H.
    assert (H2 : Forall (fun q => lengths_match q ks) atts2)
      by (eapply Permutation_Forall; eauto).
    assert (Hf2 : Forall fits_i32 atts2) by (eapply Permutation_Forall; eauto).
    rewrite (fold_reduce_ok _ _ Hf H), (fold_reduce_ok _ _ Hf2 H2).
    f_equal. apply filter_ext. intros k. now apply forallb_perm.
Qed.

Lemma reduce_shrinks_and_commutes_witness :
  (length [[A; A]] <= length [[A; A]; [A; B]])%nat /\
  (exists r, reduce [[A; A]; [A; B]] (att [A; A] 2) = Ok r /\ (length r <= 2)%nat) /\
  fold_reduce [[A; A]; [A; B]] [att [A; B] 1; att [A; C] 1] =
  fold_reduce [[A; A]; [A; B]] [att [A; C] 1; att [A; B] 1].
Proof.
  split; [|split].
  - apply ((proj1 reduce_shrinks_and_commutes) [[A; A]; [A; B]] (att [A; A] 2)).
    reflexivity.
  - apply (proj1 (proj2 reduce_shrinks_and_commutes)).
    + unfold fits_i32; simpl; lia.
    + repeat constructor.
  - apply (proj2 (proj2 reduce_shrinks_and_commutes)).
    + apply perm_swap.
    + repeat constructor; unfold fits_i32; simpl; lia.
    + repeat constructor.
Defined.

(** ** C5 *)

(** C5, refuted: the attempt parsed from ["X"] with score 1 has no mistake
    to assume, yet the generator returns no candidate at all, since its own
    sequence holds the sentinel. *)
Lemma generate_zero_mistakes_sentinel :
  (let* q := from_string "X" 1 in generate_valid_set q) = Ok [].
Proof. vm_compute. reflexivity. Qed.

(** C5, as amended: for a seed whose score equals its length, the generator
    returns the seed's own sequence as its only candidate when that sequence
    has no sentinel [X], and no candidate when it has one. *)
Theorem generate_zero_mistakes q :
  i32_range (score q) ->
  score q = Z.of_nat (length (answers q)) ->
  generate_valid_set q = Ok (if contains_x (answers q) then [] else [answers q]).
Proof.
  intros Hr Hs. unfold generate_valid_set.
  rewrite Hs, usize_of_i32_nonneg by (unfold i32_range in Hr; lia).
  rewrite Z.ltb_irrefl, Z.sub_diag. cbn [Z.to_nat].
  rewrite answers_to_try_zero, combinations_zero. simpl.
  destruct (contains_x (answers q)); reflexivity.
Qed.

Lemma generate_zero_mistakes_witness :
  generate_valid_set (att [A; C; D] 3) = Ok [[A; C; D]].
Proof.
  apply (generate_zero_mistakes (att [A; C; D] 3)).
  - unfold i32_range; simpl; lia.
  - reflexivity.
Defined.

(** ** C6 *)

(** C6: for the seed ["A"] with score 0 the generator returns all four
    one-letter keys, [A] included, which agrees with the seed in its only
    position: the replacement letters are not kept apart from the seed's. *)
Theorem generate_all_wrong_keeps_seed :
  generate_valid_set (att [A] 0) = Ok [[A]; [B]; [C]; [D]] /\
  check (att [A] 0) [A] = Ok false.
Proof. split; vm_compute; reflexivity. Qed.

(** ** C7 *)

(** C7, refuted: reducing the set [[A...A]] of one key of [2^31] letters
    by the attempt [A...A] of score 0 (same length) returns no set: the
    [i32] sum of [check] overflows and [reduce] panics. *)
Lemma reduce_filter_overflow :
  lengths_match (att (repeat A (Z.to_nat (2 ^ 31))) 0) [repeat A (Z.to_nat (2 ^ 31))] /\
  reduce [repeat A (Z.to_nat (2 ^ 31))] (att (repeat A (Z.to_nat (2 ^ 31))) 0) =
    Err AddOverflow.
Proof.
  split; [apply lengths_match_repeat|].
  unfold reduce. cbn [filter_res].
  rewrite check_repeat_overflow by (rewrite Z2Nat.id by lia; lia).
  reflexivity.
Qed.

(** C7, as amended: a [reduce] by an attempt of at most [i32::MAX]
    answers, whose length every key shares, returns the keys of the set, in
    their order, for which [check] returns true, and no others. *)
Theorem reduce_is_check_filter ks q :
  fits_i32 q ->
  lengths_match q ks ->
  exists r, reduce ks q = Ok r /\
    r = filter (fun k => Z.eqb (Z.of_nat (matching_positions q k)) (score q)) ks /\
    (forall k, In k r <-> In k ks /\ check q k = Ok true).
Proof.
  intros Hf H. exists (filter (check_bool q) ks).
  split; [now apply reduce_ok|]. split.
  - apply filter_ext_in. intros k Hk.
    unfold lengths_match in H; rewrite Forall_forall in H.
    apply check_bool_spec; [exact Hf|]. symmetry; auto.
  - intros k. rewrite filter_In.
    unfold lengths_match in H; rewrite Forall_forall in H.
    split; intros [Hk Hc]; split; auto.
    + unfold check_bool in Hc. rewrite check_ok_fits in * by (auto; symmetry; auto).
      now rewrite Hc.
    + unfold check_bool. now rewrite Hc.
Qed.

Lemma reduce_is_check_filter_witness :
  exists r, reduce [[A; A]; [A; B]; [C; C]] (att [A; D] 1) = Ok r /\
    r = filter (fun k => Z.eqb (Z.of_nat (matching_positions (att [A; D] 1) k))
                           (score (att [A; D] 1))) [[A; A]; [A; B]; [C; C]] /\
    (forall k, In k r <-> In k [[A; A]; [A; B]; [C; C]] /\ check (att [A; D] 1) k = Ok true).
Proof.
  apply reduce_is_check_filter; [unfold fits_i32; simpl; lia|]. repeat constructor.
Defined.

(** ** C8 *)

(** C8: no key produced by the generator contains the sentinel [X]; every
    key kept by [reduce] was in its input set; hence no string written for
    the final set contains the character ['X']. *)
Theorem no_sentinel_in_output :
  (forall q ks, generate_valid_set q = Ok ks -> forall k, In k ks -> ~ In X k) /\
  (forall ks q r, reduce ks q = Ok r -> forall k, In k r -> In k ks) /\
  (forall loaded ss, search_strings loaded = Ok ss ->
     forall s, In s ss -> ~ In "X"%char (list_ascii_of_string s)).
Proof.
  split; [|split].
  - exact generate_valid_set_no_x.
  - intros ks q r H. eapply filter_res_incl. exact H.
  - intros loaded ss H s Hs.
    unfold search_strings, search in H.
    destruct (prepare_attempts loaded) as [[|seed rest]|]; simpl in H; try discriminate.
    destruct (generate_valid_set seed) as [g|] eqn:Eg; simpl in H; [|discriminate].
    destruct (fold_reduce g rest) as [ks|] eqn:Ef; simpl in H; [|discriminate].
    inversion H; subst ss.
    apply in_map_iff in Hs as [k [<- Hk]].
    apply as_string_no_x.
    eapply generate_valid_set_no_x; [exact Eg|].
    eapply fold_reduce_incl; eauto.
Qed.

Lemma no_sentinel_in_output_witness :
  ~ In X [A; B] /\ In [A; A] [[A; A]; [A; C]] /\
  ~ In "X"%char (list_ascii_of_string "AA").
Proof.
  split; [|split].
  - apply (proj1 no_sentinel_in_output (att [A; B] 1)
             [[A; A]; [A; B]; [A; C]; [A; D]; [B; B]; [C; B]; [D; B]]).
    + vm_compute. reflexivity.
    + simpl; auto.
  - apply (proj1 (proj2 no_sentinel_in_output) [[A; A]; [A; C]] (att [A; A] 2) [[A; A]]).
    + vm_compute. reflexivity.
    + simpl; auto.
  - apply (proj2 (proj2 no_sentinel_in_output) [att [A; B] 1; att [A; A] 2] ["AA"%string]).
    + vm_compute. reflexivity.
    + simpl; auto.
Defined.

(** ** C9 *)

(** C9: for an [i32] score and a string of at most [isize::MAX] bytes,
    [from_string] fails with [ImpossibleScore] when the score is negative
    or exceeds the length, and never with [ImpossibleScore] when
    [0 <= score <= length]; then a character whose upper case is not one of
    [A B C D X] makes it fail with [InvalidSymbol].  [Answer::from] fails
    with [InvalidSymbol] exactly on the characters other than
    [A B C D X]. *)
Theorem from_string_validation s sc :
  i32_range sc ->
  Z.of_nat (String.length s) < 2 ^ 63 ->
  ((sc < 0 \/ Z.of_nat (String.length s) < sc) -> from_string s sc = Err ImpossibleScore) /\
  (0 <= sc <= Z.of_nat (String.length s) -> from_string s sc <> Err ImpossibleScore) /\
  (0 <= sc <= Z.of_nat (String.length s) ->
     forall c, In c (list_ascii_of_string s) ->
     answer_from (char_to_upper c) = Err InvalidSymbol ->
     from_string s sc = Err InvalidSymbol) /\
  (forall c, answer_from c = Err InvalidSymbol <-> ~ In c ["A"; "B"; "C"; "D"; "X"]%char).
Proof.
  intros Hr Hlen. unfold i32_range in Hr.
  split; [|split; [|split]].
  - intros Hsc. unfold from_string.
    replace (Z.of_nat (String.length s) <? usize_of_i32 sc) with true; [reflexivity|].
    symmetry; apply Z.ltb_lt.
    destruct (Z.ltb_spec sc 0).
    + rewrite usize_of_i32_neg by (unfold i32_range; lia). lia.
    + rewrite usize_of_i32_nonneg by lia. lia.
  - intros Hsc. unfold from_string.
    rewrite usize_of_i32_nonneg by lia.
    replace (Z.of_nat (String.length s) <? sc) with false
      by (symmetry; apply Z.ltb_ge; lia).
    destruct (map_res _ _) as [ans|e] eqn:E; simpl; [discriminate|].
    apply map_res_err in E as [c [_ Hc]].
    apply answer_from_err in Hc. congruence.
  - intros Hsc c Hc Hbad. unfold from_string.
    rewrite usize_of_i32_nonneg by lia.
    replace (Z.of_nat (String.length s) <? sc) with false
      by (symmetry; apply Z.ltb_ge; lia).
    rewrite (map_res_err_one _ _ InvalidSymbol); [reflexivity| |].
    + intros x e' He'. eapply answer_from_err; eauto.
    + exists (char_to_upper c). split; [now apply in_map|eauto].
  - intros c. unfold answer_from.
    repeat match goal with
           | |- context [Ascii.eqb ?c ?d] => destruct (Ascii.eqb_spec c d)
           end; subst; simpl; split; intros H; try discriminate;
      try (exfalso; apply H; simpl; tauto); try reflexivity.
    intros [?|[?|[?|[?|[?|[]]]]]]; subst; contradiction.
Qed.

Lemma from_string_validation_witness :
  from_string "AB" 3 = Err ImpossibleScore /\
  from_string "ab" 2 <> Err ImpossibleScore /\
  from_string "AE" 1 = Err InvalidSymbol /\
  (answer_from "E" = Err InvalidSymbol <-> ~ In "E"%char ["A"; "B"; "C"; "D"; "X"]%char).
Proof.
  destruct (from_string_validation "AB" 3) as [H1 _]; [unfold i32_range; lia | simpl; lia |].
  destruct (from_string_validation "ab" 2) as [_ [H2 _]]; [unfold i32_range; lia | simpl; lia |].
  destruct (from_string_validation "AE" 1) as [_ [_ [H3 H4]]];
    [unfold i32_range; lia | simpl; lia |].
  split; [apply H1; right; simpl; lia|].
  split; [apply H2; simpl; lia|].
  split; [apply (H3 ltac:(simpl; lia) "E"%char); [simpl; auto | reflexivity]|].
  apply H4.
Defined.

(** ** C10 *)

(** C10: the replacement sequences of [generate_valid_set]
    ([combinations_with_replacement], each selection's permutations, [sort],
    [dedup]) are exactly the naive enumeration of all [4^k] sequences of
    length [k] over [A B C D], in the same order. *)
Theorem answers_to_try_is_cartesian_power k :
  answers_to_try k = cartesian_power k /\
  length (answers_to_try k) = (4 ^ k)%nat /\
  (forall s, In s (answers_to_try k) <->
             length s = k /\ Forall (fun a => In a [A; B; C; D]) s).
Proof.
  assert (Heq : answers_to_try k = cartesian_power k).
  { unfold answers_to_try.
    destruct (sort_dedup_spec (flat_map (fun comb => permutations comb k)
                                 (combinations_with_replacement [A; B; C; D] k)))
      as [Hs Hin].
    apply strongly_sorted_unique; [exact Hs|apply cartesian_power_sorted|].
    intros s. rewrite Hin, tried_sequences_spec, cartesian_power_spec. reflexivity. }
  rewrite Heq. split; [reflexivity|split].
  - apply length_cartesian_power.
  - intros s. apply cartesian_power_spec.
Qed.

(** * Further properties of the code *)

(** ** Helpers *)

Lemma map_res_in {T U : Type} (f : T -> result U) l ys x y :
  map_res f l = Ok ys -> In x l -> f x = Ok y -> In y ys.
Proof.
  revert ys; induction l as [|z l IH]; simpl; intros ys H Hx Hf; [contradiction|].
  destruct (f z) as [y'|] eqn:Ez; simpl in H; [|discriminate].
  destruct (map_res f l) as [ys'|] eqn:El; simpl in H; [|discriminate].
  inversion H; subst. destruct Hx as [->|Hx].
  - left; congruence.
  - right; eauto.
Qed.

Lemma map_res_in_inv {T U : Type} (f : T -> result U) l ys y :
  map_res f l = Ok ys -> In y ys -> exists x, In x l /\ f x = Ok y.
Proof.
  revert ys; induction l as [|z l IH]; simpl; intros ys H Hy.
  - inversion H; subst; contradiction.
  - destruct (f z) as [y'|] eqn:Ez; simpl in H; [|discriminate].
    destruct (map_res f l) as [ys'|] eqn:El; simpl in H; [|discriminate].
    inversion H; subst. destruct Hy as [<-|Hy].
    + exists z; auto.
    + destruct (IH ys' eq_refl Hy) as [x [Hx Hfx]]; eauto.
Qed.

Lemma map_res_ok {T U : Type} (f : T -> result U) l :
  (forall x, In x l -> exists y, f x = Ok y) -> exists ys, map_res f l = Ok ys.
Proof.
  induction l as [|x l IH]; simpl; intros H; [eauto|].
  destruct (H x (or_introl eq_refl)) as [y ->]; simpl.
  destruct IH as [ys ->]; [intros; apply H; auto|]. simpl; eauto.
Qed.

Lemma flat_map_res_in {T U : Type} (f : T -> result (list U)) l zs x ys z :
  flat_map_res f l = Ok zs -> In x l -> f x = Ok ys -> In z ys -> In z zs.
Proof.
  revert zs; induction l as [|w l IH]; simpl; intros zs H Hx Hf Hz; [contradiction|].
  destruct (f w) as [ys'|] eqn:Ew; simpl in H; [|discriminate].
  destruct (flat_map_res f l) as [zs'|] eqn:El; simpl in H; [|discriminate].
  inversion H; subst. apply in_or_app. destruct Hx as [->|Hx].
  - left; congruence.
  - right; eauto.
Qed.

Lemma flat_map_res_in_inv {T U : Type} (f : T -> result (list U)) l zs z :
  flat_map_res f l = Ok zs -> In z zs -> exists x ys, In x l /\ f x = Ok ys /\ In z ys.
Proof.
  revert zs; induction l as [|w l IH]; simpl; intros zs H Hz.
  - inversion H; subst; contradiction.
  - destruct (f w) as [ys'|] eqn:Ew; simpl in H; [|discriminate].
    destruct (flat_map_res f l) as [zs'|] eqn:El; simpl in H; [|discriminate].
    inversion H; subst. apply in_app_or in Hz as [Hz|Hz].
    + exists w, ys'; auto.
    + destruct (IH zs' eq_refl Hz) as [x [ys [Hx [Hf Hin]]]]. exists x, ys; auto.
Qed.

Lemma flat_map_res_ok {T U : Type} (f : T -> result (list U)) l :
  (forall x, In x l -> exists ys, f x = Ok ys) -> exists zs, flat_map_res f l = Ok zs.
Proof.
  induction l as [|x l IH]; simpl; intros H; [eauto|].
  destruct (H x (or_introl eq_refl)) as [ys ->]; simpl.
  destruct IH as [zs ->]; [intros; apply H; auto|]. simpl; eauto.
Qed.

Lemma replace_nth_length l i a : length (replace_nth l i a) = length l.
Proof.
  revert i; induction l as [|x l IH]; intros [|i]; simpl; auto.
Qed.

Lemma nth_replace_nth l i a j d :
  (i < length l)%nat ->
  nth j (replace_nth l i a) d = if Nat.eqb j i then a else nth j l d.
Proof.
  revert i j; induction l as [|x l IH]; intros i j Hi; simpl in Hi; [lia|].
  destruct i as [|i], j as [|j]; simpl; auto.
  apply IH. lia.
Qed.

(** Overwriting keeps the length and changes only the listed positions. *)
Lemma overwrite_ok l ps ans :
  (forall p, In p ps -> (p < length l)%nat) ->
  exists r, overwrite l ps ans = Ok r /\ length r = length l /\
            (forall j d, ~ In j ps -> nth j r d = nth j l d).
Proof.
  revert l ans; induction ps as [|p ps IH]; intros l ans Hps; simpl.
  - exists l; destruct ans; auto.
  - destruct ans as [|a ans].
    + exists l; auto.
    + assert (Hp : (p < length l)%nat) by (apply Hps; now left).
      rewrite (proj2 (Nat.ltb_lt _ _) Hp).
      destruct (IH (replace_nth l p a) ans) as [r [Hr [Hl Hn]]].
      { intros p' Hp'. rewrite replace_nth_length. apply Hps; now right. }
      exists r; split; [exact Hr|split].
      * rewrite Hl. apply replace_nth_length.
      * intros j d Hj. rewrite Hn by tauto. rewrite nth_replace_nth by exact Hp.
        destruct (Nat.eqb_spec j p); [subst; tauto|reflexivity].
Qed.

(** Writing [g p] at each listed position [p]. *)
Lemma overwrite_map l ps g :
  (forall p, In p ps -> (p < length l)%nat) ->
  exists r, overwrite l ps (map g ps) = Ok r /\ length r = length l /\
            (forall j d, nth j r d = if existsb (Nat.eqb j) ps then g j else nth j l d).
Proof.
  revert l; induction ps as [|p ps IH]; intros l Hps; simpl.
  - exists l; auto.
  - assert (Hp : (p < length l)%nat) by (apply Hps; now left).
    rewrite (proj2 (Nat.ltb_lt _ _) Hp).
    destruct (IH (replace_nth l p (g p))) as [r [Hr [Hl Hn]]].
    { intros p' Hp'. rewrite replace_nth_length. apply Hps; now right. }
    exists r; split; [exact Hr|split].
    + rewrite Hl. apply replace_nth_length.
    + intros j d. rewrite Hn, nth_replace_nth by exact Hp.
      destruct (Nat.eqb_spec j p); subst; simpl;
        destruct (existsb (Nat.eqb _) ps); reflexivity.
Qed.

Lemma combinations_sound {T : Type} (l : list T) k c :
  In c (combinations l k) -> length c = k /\ incl c l /\ (NoDup l -> NoDup c).
Proof.
  revert k c; induction l as [|x l IH]; intros k c.
  - destruct k; simpl; [intros [<-|[]]|contradiction].
    split; [reflexivity|split; [intros ? []|auto]].
  - destruct k as [|k]; simpl.
    + intros [<-|[]]. split; [reflexivity|split; [intros ? []|constructor]].
    + intros H. apply in_app_or in H as [H|H].
      * apply in_map_iff in H as [c' [<- Hc']].
        destruct (IH _ _ Hc') as [Hl [Hi Hn]]. split; [simpl; lia|split].
        -- intros y [<-|Hy]; [now left|right; auto].
        -- intros Hnd. inversion Hnd; subst. constructor; auto.
      * destruct (IH _ _ H) as [Hl [Hi Hn]]. split; [exact Hl|split].
        -- intros y Hy; right; auto.
        -- intros Hnd. inversion Hnd; subst. auto.
Qed.

(** Every selection of a list's elements, in order, is one of its
    combinations. *)
Lemma combinations_filter {T : Type} (f : T -> bool) l :
  In (filter f l) (combinations l (length (filter f l))).
Proof.
  induction l as [|x l IH]; simpl; [now left|].
  destruct (f x); simpl.
  - apply in_or_app; left. now apply in_map.
  - destruct (length (filter f l)) as [|k] eqn:E.
    + left. destruct (filter f l); [reflexivity|discriminate].
    + apply in_or_app; right. exact IH.
Qed.

Lemma length_filter_impl {T : Type} (f g : T -> bool) l :
  (forall x, f x = true -> g x = true) ->
  (length (filter f l) <= length (filter g l))%nat.
Proof.
  intros H. induction l as [|x l IH]; simpl; [lia|].
  destruct (f x) eqn:Ef; [rewrite (H x Ef)|destruct (g x)]; simpl; lia.
Qed.

Lemma not_in_x_abcd key : ~ In X key -> Forall (fun a => In a [A; B; C; D]) key.
Proof.
  intros H. apply Forall_forall. intros a Ha.
  destruct a; simpl; auto. contradiction.
Qed.

Lemma contains_x_not_in key : ~ In X key -> contains_x key = false.
Proof.
  intros H. unfold contains_x. destruct (existsb _ key) eqn:E; [|reflexivity].
  apply existsb_exists in E as [a [Ha Hx]]. apply answer_eqb_eq in Hx. subst. contradiction.
Qed.

Lemma generate_valid_set_inv q ks :
  generate_valid_set q = Ok ks ->
  usize_of_i32 (score q) <= Z.of_nat (length (answers q)) /\
  exists small,
    flat_map_res (gen_candidates q (num_mistakes q))
      (combinations (seq 0 (length (answers q))) (num_mistakes q)) = Ok small /\
    ks = keep_keys small.
Proof.
  unfold generate_valid_set. intros H.
  destruct (Z.ltb_spec (Z.of_nat (length (answers q))) (usize_of_i32 (score q)));
    [discriminate|].
  split; [lia|].
  destruct (flat_map_res _ _) as [small|] eqn:E; simpl in H; [|discriminate].
  inversion H; subst. exists small. split; [first [exact E|reflexivity]|reflexivity].
Qed.

(** The positions where a key differs from an attempt. *)
Lemma mismatch_count q key :
  length key = length (answers q) ->
  length (filter (fun i => negb (answer_eqb (nth i (answers q) X) (nth i key X)))
            (seq 0 (length (answers q)))) =
  (length (answers q) - matching_positions q key)%nat.
Proof.
  intros _. unfold matching_positions.
  pose proof (filter_length (fun i => answer_eqb (nth i (answers q) X) (nth i key X))
                (seq 0 (length (answers q)))) as H.
  rewrite length_seq in H. lia.
Qed.

Lemma generate_valid_set_ok q :
  0 <= score q < 2 ^ 64 -> score q <= Z.of_nat (length (answers q)) ->
  exists small,
    flat_map_res (gen_candidates q (num_mistakes q))
      (combinations (seq 0 (length (answers q))) (num_mistakes q)) = Ok small /\
    generate_valid_set q = Ok (keep_keys small).
Proof.
  intros Hs Hn.
  destruct (flat_map_res_ok (gen_candidates q (num_mistakes q))
              (combinations (seq 0 (length (answers q))) (num_mistakes q)))
    as [small Hsmall].
  { intros c Hc. apply map_res_ok. intros ans _.
    destruct (combinations_sound _ _ _ Hc) as [_ [Hi _]].
    destruct (overwrite_ok (answers q) c ans) as [r [Hr _]]; [|eauto].
    intros p Hp. apply Hi, in_seq in Hp. lia. }
  exists small; split; [exact Hsmall|].
  unfold generate_valid_set.
  destruct (Z.ltb_spec (Z.of_nat (length (answers q))) (usize_of_i32 (score q)))
    as [Hlt|_].
  { rewrite usize_of_i32_nonneg in Hlt by exact Hs. lia. }
  change (bind (flat_map_res (gen_candidates q (num_mistakes q))
                  (combinations (seq 0 (length (answers q))) (num_mistakes q)))
               (fun s => Ok (keep_keys s)) = Ok (keep_keys small)).
  rewrite Hsmall. reflexivity.
Qed.

Lemma keep_keys_in small key :
  In key small -> ~ In X key -> In key (keep_keys small).
Proof.
  intros Hk Hx. unfold keep_keys.
  apply (proj2 (proj2 (sort_dedup_spec _) key)).
  apply filter_In. split; [exact Hk|]. now rewrite contains_x_not_in.
Qed.

Lemma keep_keys_inv small key : In key (keep_keys small) -> In key small /\ ~ In X key.
Proof.
  unfold keep_keys. intros H.
  apply (proj1 (proj2 (sort_dedup_spec _) key)) in H.
  apply filter_In in H as [Hk Hx]. split; [exact Hk|].
  apply contains_x_false. now destruct (contains_x key).
Qed.

Lemma answers_to_try_in k s :
  length s = k -> Forall (fun a => In a [A; B; C; D]) s -> In s (answers_to_try k).
Proof.
  intros Hl Hf. unfold answers_to_try.
  apply (proj2 (proj2 (sort_dedup_spec _) s)). now apply tried_sequences_spec.
Qed.

(** ** Completeness of the generator *)

Lemma valid_set_complete q key :
  i32_range (score q) ->
  length key = length (answers q) -> ~ In X key -> check q key = Ok true ->
  exists ks, generate_valid_set q = Ok ks /\ In key ks.
Proof.
  intros Hr Hlen Hx Hc.
  apply check_true in Hc as [_ Hc].
  set (n := length (answers q)) in *.
  assert (Hm : (matching_positions q key <= n)%nat).
  { unfold matching_positions. fold n.
    rewrite <- (length_seq n 0) at 2. apply filter_length_le. }
  destruct (generate_valid_set_ok q) as [small [Hsmall Hgen]];
    [unfold i32_range in Hr; lia|lia|].
  exists (keep_keys small); split; [exact Hgen|].
  apply keep_keys_in; [|exact Hx].
  set (f := fun i => negb (answer_eqb (nth i (answers q) X) (nth i key X))).
  set (ps := filter f (seq 0 n)).
  assert (Hk : num_mistakes q = length ps).
  { unfold ps, f, n. rewrite mismatch_count by exact Hlen.
    unfold num_mistakes. rewrite usize_of_i32_nonneg by (unfold i32_range in Hr; lia).
    fold n. lia. }
  assert (Hps : In ps (combinations (seq 0 n) (num_mistakes q)))
    by (rewrite Hk; apply combinations_filter).
  assert (Hlt : forall p, In p ps -> (p < length (answers q))%nat).
  { intros p Hp. apply filter_In in Hp as [Hp _]. apply in_seq in Hp. fold n. lia. }
  destruct (overwrite_map (answers q) ps (fun i => nth i key X) Hlt) as [r [Hr' [Hrl Hrn]]].
  assert (r = key) as ->.
  { apply nth_ext with (d := X) (d' := X); [rewrite Hrl; symmetry; exact Hlen|].
    intros j Hj. rewrite Hrn.
    destruct (existsb (Nat.eqb j) ps) eqn:E; [reflexivity|].
    destruct (f j) eqn:Ef.
    - exfalso. assert (In j ps) as Hin.
      { apply filter_In. split; [apply in_seq; fold n in Hrl; lia|exact Ef]. }
      assert (existsb (Nat.eqb j) ps = true) by
        (apply existsb_exists; exists j; split; [exact Hin|apply Nat.eqb_refl]).
      congruence.
    - unfold f in Ef. apply answer_eqb_eq. now destruct (answer_eqb _ _). }
  assert (Hans : In (map (fun i => nth i key X) ps) (answers_to_try (num_mistakes q))).
  { apply answers_to_try_in; [now rewrite length_map|].
    apply Forall_map. apply Forall_forall. intros i Hi.
    assert (In (nth i key X) key) as Hin by (apply nth_In; rewrite Hlen; auto).
    pose proof (not_in_x_abcd key Hx) as Hf. rewrite Forall_forall in Hf. auto. }
  destruct (map_res_ok (fun ans => overwrite (answers q) ps ans)
              (answers_to_try (num_mistakes q))) as [ys Hys].
  { intros ans _. destruct (overwrite_ok (answers q) ps ans Hlt) as [r' [Hr'' _]]. eauto. }
  eapply flat_map_res_in; [exact Hsmall|exact Hps| |].
  - unfold gen_candidates. exact Hys.
  - eapply map_res_in; [exact Hys|exact Hans|exact Hr'].
Qed.

(** Every sentinel-free key that agrees with the seed attempt in exactly
    [score] positions is among the keys [generate_valid_set] returns: the
    generator never loses a key consistent with its seed. *)
Theorem generate_valid_set_complete q key :
  i32_range (score q) ->
  length key = length (answers q) -> ~ In X key -> check q key = Ok true ->
  exists ks, generate_valid_set q = Ok ks /\ In key ks.
Proof. exact (valid_set_complete q key). Qed.

Lemma generate_valid_set_complete_witness :
  exists ks, generate_valid_set (att [A; B; C] 2) = Ok ks /\ In [A; D; C] ks.
Proof.
  apply generate_valid_set_complete.
  - unfold i32_range; simpl; lia.
  - reflexivity.
  - simpl; intuition discriminate.
  - reflexivity.
Defined.

(** ** Soundness of the generator up to the seed's score *)

Lemma positions_outside (c : list nat) n :
  (n - length c <= length (filter (fun i => negb (existsb (Nat.eqb i) c)) (seq 0 n)))%nat.
Proof.
  pose proof (filter_length (fun i => existsb (Nat.eqb i) c) (seq 0 n)) as H.
  rewrite length_seq in H.
  assert (length (filter (fun i => existsb (Nat.eqb i) c) (seq 0 n)) <= length c)%nat.
  { apply NoDup_incl_length; [apply NoDup_filter, seq_NoDup|].
    intros i Hi. apply filter_In in Hi as [_ Hi].
    apply existsb_exists in Hi as [j [Hj Hij]]. apply Nat.eqb_eq in Hij. now subst. }
  lia.
Qed.

Lemma valid_set_sound q ks :
  i32_range (score q) ->
  generate_valid_set q = Ok ks ->
  forall key, In key ks ->
  length key = length (answers q) /\ ~ In X key /\
  score q <= Z.of_nat (matching_positions q key).
Proof.
  intros Hr Hgen key Hkey.
  destruct (generate_valid_set_inv q ks Hgen) as [Hle [small [Hsmall ->]]].
  apply keep_keys_inv in Hkey as [Hkey Hx].
  apply (flat_map_res_in_inv _ _ _ _ Hsmall) in Hkey as [c [ys [Hc [Hys Hin]]]].
  unfold gen_candidates in Hys.
  apply (map_res_in_inv _ _ _ _ Hys) in Hin as [ans [_ Hov]].
  destruct (combinations_sound _ _ _ Hc) as [Hcl [Hci _]].
  destruct (overwrite_ok (answers q) c ans) as [r [Hr' [Hrl Hrn]]].
  { intros p Hp. apply Hci, in_seq in Hp. lia. }
  rewrite Hov in Hr'. injection Hr' as <-.
  split; [exact Hrl|split; [exact Hx|]].
  destruct (Z.ltb_spec (score q) 0) as [Hneg|Hpos]; [lia|].
  rewrite usize_of_i32_nonneg in Hle by (unfold i32_range in Hr; lia).
  assert (Hk : length c = (length (answers q) - Z.to_nat (score q))%nat).
  { rewrite Hcl. unfold num_mistakes.
    rewrite usize_of_i32_nonneg by (unfold i32_range in Hr; lia). lia. }
  pose proof (positions_outside c (length (answers q))) as Hout.
  assert (Hmon : (length (filter (fun i => negb (existsb (Nat.eqb i) c))
                           (seq 0 (length (answers q)))) <= matching_positions q key)%nat).
  { unfold matching_positions. apply length_filter_impl.
    intros i Hi. rewrite Hrn.
    - apply answer_eqb_eq. reflexivity.
    - intros Hic. assert (existsb (Nat.eqb i) c = true) as Ht
        by (apply existsb_exists; exists i; split; [exact Hic|apply Nat.eqb_refl]).
      rewrite Ht in Hi. discriminate. }
  lia.
Qed.

(** Every key [generate_valid_set] returns has the seed's length, holds no
    sentinel, and agrees with the seed in at least [score] positions (it
    differs from the seed in at most [length - score] positions, but not
    necessarily in exactly that many). *)
Theorem generate_valid_set_sound q ks :
  i32_range (score q) ->
  generate_valid_set q = Ok ks ->
  forall key, In key ks ->
  length key = length (answers q) /\ ~ In X key /\
  score q <= Z.of_nat (matching_positions q key).
Proof. exact (valid_set_sound q ks). Qed.

Lemma generate_valid_set_sound_witness :
  length [A; D; C] = length (answers (att [A; B; C] 2)) /\ ~ In X [A; D; C] /\
  score (att [A; B; C] 2) <= Z.of_nat (matching_positions (att [A; B; C] 2) [A; D; C]).
Proof.
  apply (generate_valid_set_sound (att [A; B; C] 2)
           [[A; A; C]; [A; B; A]; [A; B; B]; [A; B; C]; [A; B; D]; [A; C; C];
            [A; D; C]; [B; B; C]; [C; B; C]; [D; B; C]]).
  - unfold i32_range; simpl; lia.
  - vm_compute. reflexivity.
  - simpl; tauto.
Defined.

(** ** The generator's output is strictly increasing *)

Lemma strongly_sorted_nodup l : StronglySorted list_lt l -> NoDup l.
Proof.
  induction 1 as [|x l Hs IH Hf]; constructor; [|exact IH].
  intros Hx. rewrite Forall_forall in Hf. exact (list_lt_irrefl x (Hf x Hx)).
Qed.

(** The keys [generate_valid_set] returns are in strictly increasing
    order, hence pairwise distinct. *)
Theorem generate_valid_set_sorted q ks :
  generate_valid_set q = Ok ks -> StronglySorted list_lt ks /\ NoDup ks.
Proof.
  intros H. destruct (generate_valid_set_inv q ks H) as [_ [small [_ ->]]].
  unfold keep_keys. pose proof (proj1 (sort_dedup_spec
    (filter (fun key => negb (contains_x key)) small))) as Hs.
  split; [exact Hs|now apply strongly_sorted_nodup].
Qed.

Lemma generate_valid_set_sorted_witness :
  StronglySorted list_lt [[A; A]; [A; B]; [A; C]; [A; D]; [B; B]; [C; B]; [D; B]] /\
  NoDup [[A; A]; [A; B]; [A; C]; [A; D]; [B; B]; [C; B]; [D; B]].
Proof. apply (generate_valid_set_sorted (att [A; B] 1)). vm_compute. reflexivity. Defined.

(** ** When the generator panics *)

(** For an [i32] score and fewer than [2^63] answers, [generate_valid_set]
    panics on the [usize] subtraction exactly when the score is negative
    or exceeds the number of answers, and returns a key set otherwise. *)
Theorem generate_valid_set_errors q :
  i32_range (score q) ->
  Z.of_nat (length (answers q)) < 2 ^ 63 ->
  ((score q < 0 \/ Z.of_nat (length (answers q)) < score q) ->
     generate_valid_set q = Err SubtractOverflow) /\
  (0 <= score q <= Z.of_nat (length (answers q)) ->
     exists ks, generate_valid_set q = Ok ks).
Proof.
  intros Hr Hn. unfold i32_range in Hr. split.
  - intros Hs. unfold generate_valid_set.
    replace (Z.of_nat (length (answers q)) <? usize_of_i32 (score q)) with true;
      [reflexivity|].
    symmetry. apply Z.ltb_lt.
    destruct (Z.ltb_spec (score q) 0).
    + rewrite usize_of_i32_neg by (unfold i32_range; lia). lia.
    + rewrite usize_of_i32_nonneg by lia. lia.
  - intros Hs. destruct (generate_valid_set_ok q) as [small [_ H]]; [lia|lia|eauto].
Qed.

Lemma generate_valid_set_errors_witness :
  generate_valid_set (att [A; B] 3) = Err SubtractOverflow /\
  exists ks, generate_valid_set (att [A; B] 2) = Ok ks.
Proof.
  split.
  - apply (generate_valid_set_errors (att [A; B] 3)); unfold i32_range; simpl; lia.
  - apply (generate_valid_set_errors (att [A; B] 2)); unfold i32_range; simpl; lia.
Defined.

(** ** Preparing the attempts: the length check, the sort, the reverse *)

Lemma fold_left_min_le l x e : In e (x :: l) -> (fold_left Nat.min l x <= e)%nat.
Proof.
  revert x e; induction l as [|y l IH]; simpl; intros x e He.
  - destruct He as [<-|[]]; lia.
  - assert (Hm := IH (Nat.min x y) (Nat.min x y) (or_introl eq_refl)).
    destruct He as [He|[He|He]]; [subst; lia|subst; lia|].
    apply IH; now right.
Qed.

Lemma fold_left_max_ge l x e : In e (x :: l) -> (e <= fold_left Nat.max l x)%nat.
Proof.
  revert x e; induction l as [|y l IH]; simpl; intros x e He.
  - destruct He as [<-|[]]; lia.
  - assert (Hm := IH (Nat.max x y) (Nat.max x y) (or_introl eq_refl)).
    destruct He as [He|[He|He]]; [subst; lia|subst; lia|].
    apply IH; now right.
Qed.

Lemma fold_left_min_in l x : In (fold_left Nat.min l x) (x :: l).
Proof.
  revert x; induction l as [|y l IH]; simpl; intros x; [now left|].
  destruct (IH (Nat.min x y)) as [H|H]; [|auto].
  rewrite <- H. destruct (Nat.min_spec x y) as [[_ ->]|[_ ->]]; auto.
Qed.

Lemma fold_left_max_in l x : In (fold_left Nat.max l x) (x :: l).
Proof.
  revert x; induction l as [|y l IH]; simpl; intros x; [now left|].
  destruct (IH (Nat.max x y)) as [H|H]; [|auto].
  rewrite <- H. destruct (Nat.max_spec x y) as [[_ ->]|[_ ->]]; auto.
Qed.

(** [lens.iter().min() == lens.iter().max()] holds exactly when all the
    lengths are equal. *)
Lemma min_max_same_lengths loaded :
  option_nat_eqb (list_min (map (fun att => length (answers att)) loaded))
                 (list_max (map (fun att => length (answers att)) loaded)) = true <->
  same_lengths loaded.
Proof.
  unfold same_lengths.
  destruct (map (fun att => length (answers att)) loaded) as [|x l] eqn:E.
  - apply map_eq_nil in E; subst. simpl. split; [intros _ ? ? []|reflexivity].
  - simpl. rewrite Nat.eqb_eq. split.
    + intros Heq q1 q2 H1 H2.
      assert (forall e, In e (x :: l) -> e = fold_left Nat.min l x) as Hall.
      { intros e He. pose proof (fold_left_min_le l x e He).
        pose proof (fold_left_max_ge l x e He). lia. }
      rewrite <- E in Hall.
      rewrite (Hall (length (answers q1))), (Hall (length (answers q2)))
        by (apply in_map_iff; eauto).
      reflexivity.
    + intros Hs.
      pose proof (fold_left_min_in l x) as Hmin. pose proof (fold_left_max_in l x) as Hmax.
      rewrite <- E in Hmin, Hmax.
      apply in_map_iff in Hmin as [q1 [<- H1]]. apply in_map_iff in Hmax as [q2 [<- H2]].
      apply Hs; assumption.
Qed.

Lemma insert_by_score_sorted x l :
  Sorted (fun a b => score a <= score b) l ->
  Sorted (fun a b => score a <= score b) (insert_by score_cmp x l).
Proof.
  induction 1 as [|y l Hs IH Hhd]; simpl; [repeat constructor|].
  unfold score_cmp at 1. destruct (Z.compare_spec (score y) (score x)) as [E|E|E].
  - constructor; [constructor; auto|]. constructor. lia.
  - constructor; [exact IH|].
    destruct l as [|z l]; simpl; [constructor; lia|].
    inversion Hhd; subst.
    unfold score_cmp. destruct (Z.compare_spec (score z) (score x)); constructor; lia.
  - constructor; [constructor; auto|]. constructor. lia.
Qed.

Lemma strongly_sorted_app_gen {T : Type} (R : T -> T -> Prop) l1 l2 :
  StronglySorted R l1 -> StronglySorted R l2 ->
  (forall a b, In a l1 -> In b l2 -> R a b) -> StronglySorted R (l1 ++ l2).
Proof.
  induction 1 as [|x l1 Hs IH Hf]; intros H2 Hx; simpl; [exact H2|].
  constructor.
  - apply IH; [exact H2|]. intros a b Ha Hb. apply Hx; simpl; auto.
  - apply Forall_app; split; [exact Hf|].
    apply Forall_forall. intros b Hb. apply Hx; simpl; auto.
Qed.

Lemma strongly_sorted_rev {T : Type} (R : T -> T -> Prop) l :
  StronglySorted R l -> StronglySorted (fun a b => R b a) (rev l).
Proof.
  induction 1 as [|x l Hs IH Hf]; simpl; [constructor|].
  apply strongly_sorted_app_gen; [exact IH|repeat constructor|].
  intros a b Ha [<-|[]]. rewrite Forall_forall in Hf. apply Hf. now apply in_rev.
Qed.

Lemma prepare_attempts_correct loaded :
  (same_lengths loaded ->
     exists base, prepare_attempts loaded = Ok base /\ Permutation loaded base /\
       StronglySorted (fun a b => score b <= score a) base) /\
  (~ same_lengths loaded -> prepare_attempts loaded = Err UnequalLengths).
Proof.
  unfold prepare_attempts. split.
  - intros Hs. rewrite (proj2 (min_max_same_lengths loaded) Hs). simpl.
    eexists; split; [reflexivity|split].
    + rewrite <- (sort_by_perm score_cmp loaded) at 1. apply Permutation_rev.
    + apply (strongly_sorted_rev (fun a b => score a <= score b)).
      apply Sorted_StronglySorted; [intros a b c; lia|].
      clear Hs; induction loaded as [|x l IH]; simpl; [constructor|].
      now apply insert_by_score_sorted.
  - intros Hs. destruct (option_nat_eqb _ _) eqn:E; [|reflexivity].
    exfalso. apply Hs, min_max_same_lengths, E.
Qed.

(** [prepare_attempts] fails with [UnequalLengths] exactly when two
    attempts differ in length; otherwise it returns the same attempts
    ordered by non-increasing score, so its head has the highest score. *)
Theorem prepare_attempts_spec loaded :
  (same_lengths loaded ->
     exists base, prepare_attempts loaded = Ok base /\ Permutation loaded base /\
       StronglySorted (fun a b => score b <= score a) base) /\
  (~ same_lengths loaded -> prepare_attempts loaded = Err UnequalLengths).
Proof. exact (prepare_attempts_correct loaded). Qed.

Lemma prepare_attempts_spec_witness :
  (exists base, prepare_attempts [att [A] 0; att [B] 1] = Ok base /\
     Permutation [att [A] 0; att [B] 1] base /\
     StronglySorted (fun a b => score b <= score a) base) /\
  prepare_attempts [att [A] 0; att [B; C] 1] = Err UnequalLengths.
Proof.
  split.
  - apply (prepare_attempts_spec [att [A] 0; att [B] 1]).
    intros q1 q2 [<-|[<-|[]]] [<-|[<-|[]]]; reflexivity.
  - apply (prepare_attempts_spec [att [A] 0; att [B; C] 1]).
    intros H. specialize (H (att [A] 0) (att [B; C] 1)). simpl in H.
    discriminate H; auto.
Defined.

(** ** The search of [main] *)

Lemma prepare_attempts_inv loaded base :
  prepare_attempts loaded = Ok base ->
  same_lengths loaded /\ Permutation loaded base /\
  StronglySorted (fun a b => score b <= score a) base.
Proof.
  intros H.
  assert (Hs : same_lengths loaded).
  { apply min_max_same_lengths. unfold prepare_attempts in H.
    destruct (option_nat_eqb _ _); [reflexivity|discriminate]. }
  split; [exact Hs|].
  destruct (proj1 (prepare_attempts_correct loaded) Hs) as [base' [H' Hrest]].
  rewrite H in H'. injection H' as <-. exact Hrest.
Qed.

Lemma filter_res_true {T : Type} (p : T -> result bool) l r y :
  filter_res p l = Ok r -> In y r -> p y = Ok true.
Proof.
  revert r; induction l as [|x l IH]; simpl; intros r H Hy.
  - inversion H; subst; contradiction.
  - destruct (p x) as [b|] eqn:Ep; simpl in H; [|discriminate].
    destruct (filter_res p l) as [ys|] eqn:E; simpl in H; [|discriminate].
    inversion H; subst. destruct b.
    + destruct Hy as [<-|Hy]; [exact Ep|eauto].
    + eauto.
Qed.

Lemma fold_reduce_sound ks atts r :
  fold_reduce ks atts = Ok r -> forall k, In k r -> forall q, In q atts -> check q k = Ok true.
Proof.
  revert ks; induction atts as [|q atts IH]; simpl; intros ks H k Hk q' Hq'; [contradiction|].
  destruct (reduce ks q) as [ks'|] eqn:E; simpl in H; [|discriminate].
  destruct Hq' as [<-|Hq'].
  - eapply filter_res_true; [exact E|]. eapply fold_reduce_incl; eauto.
  - eapply IH; eauto.
Qed.

Lemma check_ok_length q key b : check q key = Ok b -> length (answers q) = length key.
Proof.
  unfold check. destruct (Nat.eqb_spec (length (answers q)) (length key)); simpl;
    [auto|discriminate].
Qed.

(** [search] panics on an empty list of attempts (indexing [base[0]]) and
    on attempts of different lengths. *)
Theorem search_errors :
  search [] = Err IndexOutOfBounds /\
  (forall loaded, ~ same_lengths loaded -> search loaded = Err UnequalLengths).
Proof.
  split; [reflexivity|].
  intros loaded Hs. unfold search.
  rewrite (proj2 (prepare_attempts_correct loaded) Hs). reflexivity.
Qed.

Lemma search_errors_witness :
  search [att [A] 1; att [A; B] 1] = Err UnequalLengths.
Proof.
  apply (proj2 search_errors).
  intros H. specialize (H (att [A] 1) (att [A; B] 1)). simpl in H.
  discriminate H; auto.
Defined.

(** What a successful search guarantees: the seed is an attempt of highest
    score, every returned key has the seed's length, holds no sentinel,
    agrees with the seed in at least [score] positions, and passes the
    [check] of every other attempt. *)
Theorem search_sound loaded ks :
  Forall (fun q => i32_range (score q)) loaded ->
  search loaded = Ok ks ->
  exists seed rest,
    Permutation loaded (seed :: rest) /\
    Forall (fun q => score q <= score seed) rest /\
    forall key, In key ks ->
      length key = length (answers seed) /\ ~ In X key /\
      score seed <= Z.of_nat (matching_positions seed key) /\
      forall q, In q rest -> check q key = Ok true.
Proof.
  intros Hr H. unfold search in H.
  destruct (prepare_attempts loaded) as [base|] eqn:Ep; simpl in H; [|discriminate].
  destruct (prepare_attempts_inv _ _ Ep) as [_ [Hperm Hsorted]].
  destruct base as [|seed rest]; [discriminate|].
  destruct (generate_valid_set seed) as [g|] eqn:Eg; simpl in H; [|discriminate].
  exists seed, rest. split; [exact Hperm|split].
  - apply StronglySorted_inv in Hsorted as [_ Hf]. exact Hf.
  - intros key Hkey.
    assert (Hseed : i32_range (score seed)).
    { rewrite Forall_forall in Hr. apply Hr.
      apply (Permutation_in _ (Permutation_sym Hperm)). now left. }
    assert (Hg : In key g) by (eapply fold_reduce_incl; eauto).
    destruct (valid_set_sound seed g Hseed Eg key Hg) as [Hl [Hx Hm]].
    split; [exact Hl|split; [exact Hx|split; [exact Hm|]]].
    intros q Hq. eapply fold_reduce_sound; eauto.
Qed.

Lemma search_sound_witness :
  exists seed rest,
    Permutation [att [A; A] 2; att [A; B] 1] (seed :: rest) /\
    Forall (fun q => score q <= score seed) rest /\
    forall key, In key [[A; A]] ->
      length key = length (answers seed) /\ ~ In X key /\
      score seed <= Z.of_nat (matching_positions seed key) /\
      forall q, In q rest -> check q key = Ok true.
Proof.
  apply search_sound.
  - repeat constructor; unfold i32_range; simpl; lia.
  - vm_compute. reflexivity.
Defined.

(** For valid input (a non-empty list of attempts of one length, at most
    [i32::MAX], each score between [0] and that length) [search] does not
    panic. *)
Theorem search_total loaded :
  loaded <> [] -> same_lengths loaded ->
  Forall (fun q => i32_range (score q) /\
                   0 <= score q <= Z.of_nat (length (answers q)) /\ fits_i32 q) loaded ->
  exists ks, search loaded = Ok ks.
Proof.
  intros Hne Hs Hr. unfold search.
  destruct (proj1 (prepare_attempts_correct loaded) Hs) as [base [Ep [Hperm _]]].
  rewrite Ep; simpl.
  destruct base as [|seed rest].
  { apply Permutation_sym, Permutation_nil in Hperm. contradiction. }
  assert (Hin : forall q, In q (seed :: rest) -> In q loaded)
    by (intros q Hq; apply (Permutation_in _ (Permutation_sym Hperm)), Hq).
  rewrite Forall_forall in Hr.
  destruct (Hr seed (Hin seed (or_introl eq_refl))) as [Hseed [Hsc _]].
  destruct (generate_valid_set_ok seed) as [small [_ Eg]];
    [unfold i32_range in Hseed; lia|lia|].
  rewrite Eg; simpl.
  rewrite fold_reduce_ok; [eauto| |].
  { apply Forall_forall. intros q Hq. apply (Hr q (Hin q (or_intror Hq))). }
  apply Forall_forall. intros q Hq. unfold lengths_match. apply Forall_forall.
  intros key Hkey.
  destruct (valid_set_sound seed _ Hseed Eg key Hkey) as [Hl _].
  rewrite Hl. apply Hs; apply Hin; simpl; auto.
Qed.

Lemma search_total_witness : exists ks, search [att [A; B] 1; att [C; D] 0] = Ok ks.
Proof.
  apply search_total.
  - discriminate.
  - intros q1 q2 [<-|[<-|[]]] [<-|[<-|[]]]; reflexivity.
  - repeat constructor; unfold i32_range, fits_i32; simpl; lia.
Defined.

(** The search never loses the answer key: a sentinel-free key of at most
    [i32::MAX] answers that passes the [check] of every attempt is among the
    keys [search] returns. *)
Theorem search_complete loaded key :
  loaded <> [] ->
  Z.of_nat (length key) < 2 ^ 31 ->
  Forall (fun q => i32_range (score q)) loaded ->
  (forall q, In q loaded -> check q key = Ok true) ->
  ~ In X key ->
  exists ks, search loaded = Ok ks /\ In key ks.
Proof.
  intros Hne Hk Hr Hc Hx.
  assert (Hs : same_lengths loaded).
  { intros q1 q2 H1 H2.
    rewrite (check_ok_length _ _ _ (Hc q1 H1)), (check_ok_length _ _ _ (Hc q2 H2)).
    reflexivity. }
  unfold search.
  destruct (proj1 (prepare_attempts_correct loaded) Hs) as [base [Ep [Hperm _]]].
  rewrite Ep; simpl.
  destruct base as [|seed rest].
  { apply Permutation_sym, Permutation_nil in Hperm. contradiction. }
  assert (Hin : forall q, In q (seed :: rest) -> In q loaded)
    by (intros q Hq; apply (Permutation_in _ (Permutation_sym Hperm)), Hq).
  rewrite Forall_forall in Hr.
  assert (Hseed : i32_range (score seed)) by (apply Hr, Hin; now left).
  assert (Hcs : check seed key = Ok true) by (apply Hc, Hin; now left).
  destruct (valid_set_complete seed key Hseed) as [g [Eg Hg]];
    [symmetry; eapply check_ok_length; eauto|exact Hx|exact Hcs|].
  rewrite Eg; simpl.
  rewrite fold_reduce_ok.
  - eexists; split; [reflexivity|].
    apply filter_In. split; [exact Hg|].
    apply forallb_forall. intros q Hq. unfold check_bool.
    rewrite (Hc q (Hin q (or_intror Hq))). reflexivity.
  - apply Forall_forall. intros q Hq. unfold fits_i32.
    rewrite (check_ok_length _ _ _ (Hc q (Hin q (or_intror Hq)))). exact Hk.
  - apply Forall_forall. intros q Hq. unfold lengths_match. apply Forall_forall.
    intros k Hk'.
    destruct (valid_set_sound seed _ Hseed Eg k Hk') as [Hl _].
    rewrite Hl. apply Hs; apply Hin; simpl; auto.
Qed.

Lemma search_complete_witness :
  exists ks, search [att [A; B; C] 2; att [A; A; A] 1; att [D; D; C] 2] = Ok ks /\
             In [A; D; C] ks.
Proof.
  apply search_complete.
  - discriminate.
  - simpl; lia.
  - repeat constructor; unfold i32_range; simpl; lia.
  - intros q [<-|[<-|[<-|[]]]]; reflexivity.
  - simpl; intuition discriminate.
Defined.

Lemma answer_to_char_upper a : char_to_upper (answer_to_char a) = answer_to_char a.
Proof. destruct a; reflexivity. Qed.

Lemma answer_from_to_char a : answer_from (answer_to_char a) = Ok a.
Proof. destruct a; reflexivity. Qed.

Lemma map_res_from_to_char key :
  map_res answer_from (map char_to_upper (map answer_to_char key)) = Ok key.
Proof.
  induction key as [|a key IH]; simpl; [reflexivity|].
  rewrite answer_to_char_upper, answer_from_to_char; simpl.
  rewrite IH. reflexivity.
Qed.

Lemma length_as_string key : String.length (as_string key) = length key.
Proof.
  unfold as_string. induction key as [|a key IH]; simpl; congruence.
Qed.

(** Round trip of the answer-file format: reading back the string that
    [as_string] writes for a key, with a score between [0] and the key's
    length, gives that key and score. *)
Theorem from_string_as_string key sc :
  i32_range sc -> 0 <= sc <= Z.of_nat (length key) ->
  from_string (as_string key) sc = Ok (att key sc).
Proof.
  intros Hr Hsc. unfold from_string.
  rewrite length_as_string, usize_of_i32_nonneg by (unfold i32_range in Hr; lia).
  destruct (Z.ltb_spec (Z.of_nat (length key)) sc); [lia|].
  unfold as_string. rewrite list_ascii_of_string_of_list_ascii.
  rewrite map_res_from_to_char. reflexivity.
Qed.

Lemma from_string_as_string_witness :
  from_string (as_string [A; D; X; C]) 2 = Ok (att [A; D; X; C] 2).
Proof.
  apply from_string_as_string; unfold i32_range; simpl; lia.
Defined.

Lemma filter_length_full {T : Type} (f : T -> bool) l :
  length (filter f l) = length l -> forall x, In x l -> f x = true.
Proof.
  induction l as [|y l IH]; simpl; intros H x Hx; [contradiction|].
  pose proof (filter_length_le f l) as Hle.
  destruct (f y) eqn:Ef; simpl in H.
  - destruct Hx as [<-|Hx]; [exact Ef|]. apply IH; [lia|exact Hx].
  - lia.
Qed.

(** A perfect-score attempt pins the key down: an attempt whose [i32]
    score equals its length passes [check] for exactly one key of its
    length, its own answers. *)
Theorem check_perfect_score ans key :
  Z.of_nat (length ans) < 2 ^ 31 ->
  length key = length ans ->
  check (att ans (Z.of_nat (length ans))) key = Ok true <-> key = ans.
Proof.
  intros Hf Hl. rewrite check_ok_fits by (exact Hf || (simpl; symmetry; exact Hl)).
  split.
  - intros H. injection H as H. apply Z.eqb_eq, Nat2Z.inj in H.
    unfold matching_positions in H; simpl in H.
    rewrite <- (length_seq (length ans) 0) in H at 2.
    pose proof (filter_length_full _ _ H) as Hall.
    apply nth_ext with (d := X) (d' := X); [exact Hl|].
    intros n Hn. rewrite Hl in Hn.
    specialize (Hall n (proj2 (in_seq _ _ _) (conj (Nat.le_0_l n) Hn))).
    symmetry. apply answer_eqb_eq. exact Hall.
  - intros ->. f_equal. apply Z.eqb_eq. f_equal.
    unfold matching_positions; simpl.
    rewrite <- (length_seq (length ans) 0) at 2.
    rewrite forallb_filter_id; [reflexivity|]. apply forallb_forall.
    intros n _. apply answer_eqb_eq. reflexivity.
Qed.

Lemma check_perfect_score_witness :
  check (att [A; C; B] 3) [A; C; B] = Ok true /\ check (att [A; C; B] 3) [A; C; D] <> Ok true.
Proof.
  split.
  - apply (proj2 (check_perfect_score [A; C; B] [A; C; B] ltac:(simpl; lia) eq_refl)).
    reflexivity.
  - intros H.
    apply (check_perfect_score [A; C; B] [A; C; D] ltac:(simpl; lia) eq_refl) in H.
    discriminate.
Defined.

Lemma reduce_err_key ks q e :
  reduce ks q = Err e -> exists k, In k ks /\ check q k = Err e.
Proof.
  unfold reduce. induction ks as [|k ks IH]; simpl; intros H; [discriminate|].
  destruct (check q k) as [b|e'] eqn:Ec; simpl in H.
  - destruct (filter_res (fun k0 => check q k0) ks); simpl in H; [discriminate|].
    injection H as <-. destruct (IH eq_refl) as [k' [Hk' Hc]]. eauto.
  - injection H as <-. eauto.
Qed.

Lemma reduce_mismatch ks q :
  fits_i32 q ->
  (exists k, In k ks /\ length k <> length (answers q)) ->
  reduce ks q = Err LengthMismatch.
Proof.
  intros Hf [k [Hk Hl]]. unfold reduce.
  induction ks as [|k' ks IH]; [contradiction|]. simpl.
  destruct Hk as [Heq|Hk]; [subst k'|].
  - rewrite check_mismatch by congruence. reflexivity.
  - destruct (check q k') as [b|e] eqn:Ec; simpl.
    + rewrite (IH Hk). reflexivity.
    + apply check_err_cases in Ec as [[-> _]|[-> [Hl' Hm]]]; [reflexivity|].
      pose proof (matching_le_length q k'). unfold fits_i32 in Hf. lia.
Qed.

(** [reduce] panics only through [check]: with [LengthMismatch] when the
    set holds a key whose length differs from the attempt's, and with the
    [i32] overflow of the match count when a key agrees with the attempt in
    [2^31] or more positions.  For an attempt of at most [i32::MAX] answers
    the overflow cannot happen, and [reduce] panics exactly when some key's
    length differs. *)
Theorem reduce_errors ks q :
  (forall e, reduce ks q = Err e ->
     (e = LengthMismatch /\ exists k, In k ks /\ length k <> length (answers q)) \/
     (e = AddOverflow /\ exists k, In k ks /\ length k = length (answers q) /\
                                   2 ^ 31 <= Z.of_nat (matching_positions q k))) /\
  (fits_i32 q ->
     ((exists k, In k ks /\ length k <> length (answers q)) <->
      reduce ks q = Err LengthMismatch) /\
     (forall e, reduce ks q = Err e -> e = LengthMismatch)).
Proof.
  assert (Hcases : forall e, reduce ks q = Err e ->
     (e = LengthMismatch /\ exists k, In k ks /\ length k <> length (answers q)) \/
     (e = AddOverflow /\ exists k, In k ks /\ length k = length (answers q) /\
                                   2 ^ 31 <= Z.of_nat (matching_positions q k))).
  { intros e H. destruct (reduce_err_key _ _ _ H) as [k [Hk Hc]].
    apply check_err_cases in Hc as [[-> Hl]|[-> [Hl Hm]]].
    - left. eauto.
    - right. eauto. }
  split; [exact Hcases|]. intros Hf.
  assert (Honly : forall e, reduce ks q = Err e -> e = LengthMismatch).
  { intros e H. destruct (Hcases e H) as [[-> _]|[_ [k [_ [_ Hm]]]]]; [reflexivity|].
    pose proof (matching_le_length q k). unfold fits_i32 in Hf. lia. }
  split; [split|exact Honly].
  - now apply reduce_mismatch.
  - intros H. destruct (Hcases _ H) as [[_ Hex]|[Habs _]]; [exact Hex|discriminate].
Qed.

Lemma reduce_errors_witness :
  reduce [[A]; [A; B]] (att [A] 1) = Err LengthMismatch /\
  (forall e, reduce [[A]; [A; B]] (att [A] 1) = Err e -> e = LengthMismatch).
Proof.
  destruct (proj2 (reduce_errors [[A]; [A; B]] (att [A] 1)))
    as [Hiff Honly]; [unfold fits_i32; simpl; lia|].
  split; [|exact Honly].
  apply Hiff. exists [A; B]. split; [simpl; auto|discriminate].
Defined.
